(** * gym-locm: the MCTS searcher, the reward function and the error kinds

    A shallow embedding of [gym_locm/algorithms/mcts.py],
    [gym_locm/exceptions.py], [gym_locm/engine/enums.py],
    [gym_locm/envs/rewards.py], of [evaluate] and [run] in
    [gym_locm/toolbox/runner.py], and of the [nminibatches] adjustment in
    [gym_locm/util/interleaved-self-play.py].

    Modelling choices:
    - the searcher's attributes [Q], [N] (two [defaultdict(int)]) are total
      functions from nodes to [Z] that read 0 on a missing key; [children]
      (a [defaultdict(list)]) is a partial function, [Some l] meaning that the
      node is a key of the dictionary;
    - node identity is Python's [__eq__]/[__hash__]; here it is Rocq equality
      on an abstract node type with a decider;
    - methods mutate [self] in place and may raise; they run in a small
      state-and-exception monad [M], so the changes made before an exception
      stay visible, as in Python;
    - [while] loops take a fuel argument; running out of fuel is the outcome
      [Diverge] ("has not returned yet"), not a Python behaviour;
    - [game.act] mutates the cloned game in place; here it returns the new
      game, so [clone] is the identity on values;
    - the averages [Q/N] of [choose] are exact rationals and the UCT score is
      a real number (Python computes both in floating point). *)

From Stdlib Require Import ZArith QArith Lia List Bool Reals.
Import ListNotations.

(** ** [gym_locm/engine/enums.py]: [PlayerOrder] *)

Inductive PlayerOrder := FIRST | SECOND.

Definition player_id (p : PlayerOrder) : Z :=
  match p with FIRST => 0 | SECOND => 1 end.

(** [PlayerOrder(i)]: the enum constructor, which raises [ValueError] on an
    unknown value. *)
Definition PlayerOrder_of_Z (i : Z) : option PlayerOrder :=
  if Z.eqb i 0 then Some FIRST else if Z.eqb i 1 then Some SECOND else None.

(** [def opposing(self): return PlayerOrder((self + 1) % 2)]; the value is
    always 0 or 1, so the constructor never fails. *)
Definition opposing (p : PlayerOrder) : PlayerOrder :=
  match PlayerOrder_of_Z (Z.modulo (player_id p + 1) 2) with
  | Some q => q
  | None => p
  end.

Definition PlayerOrder_eqb (p q : PlayerOrder) : bool :=
  Z.eqb (player_id p) (player_id q).

(** [state.winner == p], with [winner] either [None] or a [PlayerOrder]. *)
Definition winner_eqb (w : option PlayerOrder) (p : PlayerOrder) : bool :=
  match w with Some q => PlayerOrder_eqb q p | None => false end.

(** ** [gym_locm/exceptions.py] *)

(** The classes of the exception hierarchy, down from [BaseException]. *)
Inductive pyclass :=
| BaseException | Exception
| GameError | ActionError
| FullHandError | EmptyDeckError | WardShieldError
| NotEnoughManaError | FullLaneError | MalformedActionError.

(** The direct base class of each class, as written in the [class] lines. *)
Definition base (c : pyclass) : option pyclass :=
  match c with
  | BaseException => None
  | Exception => Some BaseException
  | GameError => Some Exception
  | ActionError => Some Exception
  | FullHandError => Some GameError
  | EmptyDeckError => Some GameError
  | WardShieldError => Some GameError
  | NotEnoughManaError => Some ActionError
  | FullLaneError => Some ActionError
  | MalformedActionError => Some ActionError
  end.

Definition pyclass_eqb (c d : pyclass) : bool :=
  match c, d with
  | BaseException, BaseException | Exception, Exception
  | GameError, GameError | ActionError, ActionError
  | FullHandError, FullHandError | EmptyDeckError, EmptyDeckError
  | WardShieldError, WardShieldError
  | NotEnoughManaError, NotEnoughManaError | FullLaneError, FullLaneError
  | MalformedActionError, MalformedActionError => true
  | _, _ => false
  end.

(** [issubclass c d]: walk the chain of base classes from [c]; the hierarchy
    is four classes deep, so four steps reach [BaseException]. *)
Fixpoint issubclass_fuel (fuel : nat) (c d : pyclass) : bool :=
  pyclass_eqb c d ||
  match fuel, base c with
  | S f, Some b => issubclass_fuel f b d
  | _, _ => false
  end.

Definition issubclass (c d : pyclass) : bool := issubclass_fuel 4 c d.

(** The six error kinds raised by the rules engine. *)
Inductive error_kind :=
| EFullHand | EEmptyDeck | EWardShield
| ENotEnoughMana | EFullLane | EMalformedAction.

Definition class_of (e : error_kind) : pyclass :=
  match e with
  | EFullHand => FullHandError
  | EEmptyDeck => EmptyDeckError
  | EWardShield => WardShieldError
  | ENotEnoughMana => NotEnoughManaError
  | EFullLane => FullLaneError
  | EMalformedAction => MalformedActionError
  end.

(** ** [gym_locm/envs/rewards.py]: [WinLossRewardFunction.calculate] *)

Definition win_loss_calculate (winner : option PlayerOrder)
    (for_player : PlayerOrder) : Z :=
  if winner_eqb winner for_player then 1
  else if winner_eqb winner (opposing for_player) then -1
  else 0.

(** ** Python exceptions met by [mcts.py] *)

Inductive exn :=
| RuntimeError            (* [choose] on a terminal node *)
| AssertionError          (* the assertion of [_uct_select] *)
| ValueError              (* [max] of an empty list, [math.log] of 0 *)
| ZeroDivisionError       (* [Q[n] / N[n]] with [N[n] == 0] *)
| IndexError              (* [self.agents[...]] out of range *)
| EngineError (e : error_kind).  (* raised by [game.act] *)

Inductive outcome (A : Type) :=
| Ok (a : A)
| Raise (e : exn)
| Diverge.
Arguments Ok {A} a.
Arguments Raise {A} e.
Arguments Diverge {A}.

(** A state-and-exception monad over the searcher's attributes. *)
Section Monad.
Variable S : Type.

Definition St (A : Type) : Type := S -> outcome A * S.

Definition ret {A} (a : A) : St A := fun s => (Ok a, s).

Definition bind {A B} (m : St A) (k : A -> St B) : St B :=
  fun s =>
    match m s with
    | (Ok a, s') => k a s'
    | (Raise e, s') => (Raise e, s')
    | (Diverge, s') => (Diverge, s')
    end.

Definition throw {A} (e : exn) : St A := fun s => (Raise e, s).

End Monad.
Arguments ret {S A} a _.
Arguments bind {S A B} m k _.
Arguments throw {S A} e _.

Notation "x <- m ;; k" := (bind m (fun x => k))
  (at level 61, m at next level, right associativity).
Notation "m ;; k" := (bind m (fun _ => k))
  (at level 61, right associativity).

(** [max(xs, key=f)]: CPython keeps the current item unless a later item's
    key compares strictly greater, so ties go to the first maximal item; an
    empty [xs] raises [ValueError] ([None] here). *)
Fixpoint max_by_from {A K} (gtb : K -> K -> bool) (key : A -> K)
    (best : A) (l : list A) : A :=
  match l with
  | [] => best
  | x :: l' =>
      if gtb (key x) (key best) then max_by_from gtb key x l'
      else max_by_from gtb key best l'
  end.

Definition max_by {A K} (gtb : K -> K -> bool) (key : A -> K) (l : list A)
    : option A :=
  match l with
  | [] => None
  | x :: l' => Some (max_by_from gtb key x l')
  end.

(** The score of [choose]: [float("-inf")] or the average [Q[n] / N[n]]. *)
Inductive escore := NegInf | Fin (q : Q).

Definition escore_gtb (a b : escore) : bool :=
  match a, b with
  | NegInf, _ => false
  | Fin _, NegInf => true
  | Fin x, Fin y => negb (Qle_bool x y)
  end.

Definition escore_le (a b : escore) : Prop := escore_gtb a b = false.

Definition R_gtb (a b : R) : bool := if Rlt_dec b a then true else false.

(** ** [gym_locm/algorithms/mcts.py]: class [MCTS] *)

(** The game behind a node: [winner], [current_player] and [act], which
    raises the engine's error kinds. *)
Class Game (game action : Type) := {
  winner : game -> option PlayerOrder;
  current_player : game -> PlayerOrder;
  act : game -> action -> error_kind + game
}.

(** The duck-typed node interface: node equality, [is_terminal],
    [find_children], [find_random_child] and [node.state]. *)
Class SearchNode (node game : Type) := {
  node_eq_dec : forall x y : node, {x = y} + {x <> y};
  is_terminal : node -> bool;
  find_children : node -> list node;
  find_random_child : node -> node;
  state : node -> game
}.

Section MCTS.
Context {game action : Type} `{Game game action}.
Context {node : Type} `{SearchNode node game}.

(** The attributes set by [__init__]. Each agent is its [act] method. *)
Record MCTS := mkMCTS {
  agents : list (game -> action);
  Qt : node -> Z;
  Nt : node -> Z;
  children : node -> option (list node);
  exploration_weight : R
}.

(** [MCTS(agents, exploration_weight=1.41)]: three fresh, empty tables. *)
Definition new_MCTS (ags : list (game -> action)) (c : R) : MCTS :=
  {| agents := ags; Qt := fun _ => 0%Z; Nt := fun _ => 0%Z;
     children := fun _ => None; exploration_weight := c |}.

Definition default_exploration_weight : R := (IZR 141 / IZR 100)%R.

Definition M := St MCTS.

(** [node in self.children] *)
Definition is_key (s : MCTS) (n : node) : bool :=
  match children s n with Some _ => true | None => false end.

(** [self.children[node]] on a key; the default [[]] otherwise. *)
Definition children_of (s : MCTS) (n : node) : list node :=
  match children s n with Some l => l | None => [] end.

Definition set_children (s : MCTS) (n : node) (l : list node) : MCTS :=
  {| agents := agents s; Qt := Qt s; Nt := Nt s;
     children := fun m => if node_eq_dec m n then Some l else children s m;
     exploration_weight := exploration_weight s |}.

(** [def choose(self, node)] *)
Definition choose_score (s : MCTS) (n : node) : escore :=
  if Z.eqb (Nt s n) 0 then NegInf
  else Fin (inject_Z (Qt s n) / inject_Z (Nt s n)).

Definition choose (n : node) : M node :=
  fun s =>
    if is_terminal n then (Raise RuntimeError, s)
    else if negb (is_key s n) then (Ok (find_random_child n), s)
    else match max_by escore_gtb (choose_score s) (children_of s n) with
         | Some c => (Ok c, s)
         | None => (Raise ValueError, s)
         end.

(** [def _uct_select(self, node)] *)
Definition uct_score (s : MCTS) (p n : node) : R :=
  (IZR (Qt s n) / IZR (Nt s n)
   + exploration_weight s * sqrt (ln (IZR (Nt s p)) / IZR (Nt s n)))%R.

Definition uct_select (p : node) : M node :=
  fun s =>
    let l := children_of s p in
    if negb (forallb (is_key s) l) then (Raise AssertionError, s)
    else if Z.leb (Nt s p) 0 then (Raise ValueError, s)   (* math.log *)
    else match l with
         | [] => (Raise ValueError, s)                     (* max([]) *)
         | _ =>
           if existsb (fun n => Z.eqb (Nt s n) 0) l
           then (Raise ZeroDivisionError, s)
           else match max_by R_gtb (uct_score s p) l with
                | Some c => (Ok c, s)
                | None => (Raise ValueError, s)
                end
         end.

(** [def _select(self, node)]: the [while True] loop, with fuel. *)
Definition unexplored_of (s : MCTS) (n : node) : list node :=
  filter (fun i => negb (is_key s i)) (children_of s n).

Definition stops_at (s : MCTS) (n : node) : bool :=
  negb (is_key s n)
  || match children_of s n with [] => true | _ => false end
  || is_terminal n.

Fixpoint select_loop (fuel : nat) (path : list node) (n : node)
    : M (list node) :=
  match fuel with
  | O => fun s => (Diverge, s)
  | S f =>
    let path := path ++ [n] in
    fun s =>
      if stops_at s n then (Ok path, s)
      else match unexplored_of s n with
           | [] => (m <- uct_select n ;; select_loop f path m) s
           | u :: us => (Ok (path ++ [last (u :: us) u]), s)  (* pop() *)
           end
  end.

Definition select (fuel : nat) (n : node) : M (list node) :=
  select_loop fuel [] n.

(** [def _expand(self, node)] *)
Definition expand (n : node) : M unit :=
  fun s =>
    if is_key s n then (Ok tt, s)
    else (Ok tt, set_children s n (find_children n)).

(** [def _simulate(self, node)]: the loop on the clone of [node.state]. *)
Fixpoint play (ags : list (game -> action)) (fuel : nat) (g : game)
    : outcome game :=
  match fuel with
  | O => Diverge
  | S f =>
    match winner g with
    | Some _ => Ok g
    | None =>
      match nth_error ags (Z.to_nat (player_id (current_player g))) with
      | None => Raise IndexError
      | Some agent =>
        match act g (agent g) with
        | inl e => Raise (EngineError e)
        | inr g' => play ags f g'
        end
      end
    end
  end.

Definition mcts_reward (w : option PlayerOrder) : Z :=
  if winner_eqb w FIRST then 1 else -1.

Definition simulate (fuel : nat) (n : node) : M Z :=
  fun s =>
    (match play (agents s) fuel (state n) with
     | Ok g => Ok (mcts_reward (winner g))
     | Raise e => Raise e
     | Diverge => Diverge
     end, s).

(** [def _backpropagate(self, path, reward)] *)
Definition moves_first (n : node) : bool :=
  Z.eqb (player_id (current_player (state n))) (player_id FIRST).

Definition backprop_node (reward : Z) (s : MCTS) (n : node) : MCTS :=
  {| agents := agents s;
     Qt := fun m => if node_eq_dec m n
                    then if moves_first n then (Qt s m + reward)%Z
                         else (Qt s m - reward)%Z
                    else Qt s m;
     Nt := fun m => if node_eq_dec m n then (Nt s m + 1)%Z else Nt s m;
     children := children s;
     exploration_weight := exploration_weight s |}.

Definition backpropagate (path : list node) (reward : Z) : M unit :=
  fun s => (Ok tt, fold_left (backprop_node reward) (rev path) s).

(** [def do_rollout(self, node)] *)
Definition do_rollout (fuel : nat) (n : node) : M unit :=
  path <- select fuel n ;;
  let leaf := last path n in
  expand leaf ;;
  reward <- simulate fuel leaf ;;
  backpropagate path reward.

(** [k] calls of [do_rollout(root)] in a row. *)
Fixpoint rollouts (k fuel : nat) (root : node) : M unit :=
  match k with
  | O => ret tt
  | S k' => rollouts k' fuel root ;; do_rollout fuel root
  end.

End MCTS.

(** [sum(N[child] for child in children[n])], over the list as stored. *)
Definition sum_children_visits {game action node : Type} `{SearchNode node game}
    (s : @MCTS game action node) (n : node) : Z :=
  fold_right Z.add 0%Z (map (Nt s) (children_of s n)).

(** The amount [_backpropagate] adds to [Q[n]]: the reward as seen by the
    player to move at [n]. *)
Definition signed_reward {game action node : Type} `{Game game action}
    `{SearchNode node game} (reward : Z) (n : node) : Z :=
  if moves_first n then reward else (- reward)%Z.

(** Every list stored in [children] is the [find_children()] of its key. *)
Definition children_consistent {game action node : Type} `{SearchNode node game}
    (s : @MCTS game action node) : Prop :=
  forall k l, children s k = Some l -> l = find_children k.

(** Whether an outcome is a raised [AssertionError]. *)
Definition raised_assertion {A : Type} (o : outcome A) : bool :=
  match o with Raise AssertionError => true | _ => false end.

(** ** The searcher's instances and their dictionaries on a heap

    Python objects live on a heap. [MCTS(...)] allocates an instance whose
    attributes [Q], [N] and [children] refer to three dictionaries, each
    made by its own [defaultdict(...)] call in [__init__]. A method call on
    an instance finds [self.Q], [self.N] and [self.children] through these
    references and its changes go to the dictionaries they refer to. *)
Section Heap.
Context {game action : Type} `{Game game action}.
Context {node : Type} `{SearchNode node game}.

Record instance := mkInstance {
  i_agents : list (game -> action);
  i_Q : nat;                       (* reference of [self.Q] *)
  i_N : nat;                       (* reference of [self.N] *)
  i_children : nat;                (* reference of [self.children] *)
  i_exploration_weight : R
}.

Record heap := mkHeap {
  instances : list instance;                       (* by allocation order *)
  int_dicts : nat -> node -> Z;                    (* [defaultdict(int)] objects *)
  list_dicts : nat -> node -> option (list node);  (* [defaultdict(list)] objects *)
  next_ref : nat                                   (* the next free reference *)
}.

Definition empty_heap : heap :=
  {| instances := []; int_dicts := fun _ _ => 0%Z; list_dicts := fun _ _ => None;
     next_ref := 0 |}.

Definition upd {V : Type} (f : nat -> V) (r : nat) (v : V) : nat -> V :=
  fun r' => if Nat.eqb r' r then v else f r'.

(** [MCTS(agents, exploration_weight)]: three new dictionaries, each empty. *)
Definition new_instance (h : heap) (ags : list (game -> action)) (c : R) : heap :=
  let q := next_ref h in
  let n := S q in
  let ch := S n in
  {| instances := instances h ++ [mkInstance ags q n ch c];
     int_dicts := upd (upd (int_dicts h) q (fun _ => 0%Z)) n (fun _ => 0%Z);
     list_dicts := upd (list_dicts h) ch (fun _ => None);
     next_ref := S ch |}.

(** The attributes of an instance, read through its references. *)
Definition load (h : heap) (o : instance) : @MCTS game action node :=
  {| agents := i_agents o; Qt := int_dicts h (i_Q o); Nt := int_dicts h (i_N o);
     children := list_dicts h (i_children o);
     exploration_weight := i_exploration_weight o |}.

Definition view (h : heap) (i : nat) : option (@MCTS game action node) :=
  option_map (load h) (nth_error (instances h) i).

(** The tables a method leaves, written to the dictionaries the instance
    refers to. *)
Definition store (h : heap) (o : instance) (s : @MCTS game action node) : heap :=
  {| instances := instances h;
     int_dicts := upd (upd (int_dicts h) (i_Q o) (Qt s)) (i_N o) (Nt s);
     list_dicts := upd (list_dicts h) (i_children o) (children s);
     next_ref := next_ref h |}.

(** A method call on an instance. *)
Inductive call :=
| CallDoRollout (fuel : nat) (root : node)
| CallChoose (n : node).

Definition call_state (c : call) (s : @MCTS game action node) : @MCTS game action node :=
  match c with
  | CallDoRollout fuel root => snd (do_rollout fuel root s)
  | CallChoose n => snd (choose n s)
  end.

Definition run_call (h : heap) (i : nat) (c : call) : heap :=
  match nth_error (instances h) i with
  | Some o => store h o (call_state c (load h o))
  | None => h
  end.

Definition run_calls (h : heap) (i : nat) (cs : list call) : heap :=
  fold_left (fun h c => run_call h i c) cs h.

(** A program: constructions and method calls, in order. *)
Inductive op :=
| OpNew (ags : list (game -> action)) (c : R)
| OpCall (i : nat) (c : call).

Definition run_op (h : heap) (x : op) : heap :=
  match x with
  | OpNew ags c => new_instance h ags c
  | OpCall i c => run_call h i c
  end.

Definition run_ops (h : heap) (xs : list op) : heap := fold_left run_op xs h.

(** Two instances share no dictionary. *)
Definition refs_disjoint (o o' : instance) : Prop :=
  i_Q o <> i_Q o' /\ i_Q o <> i_N o' /\ i_N o <> i_Q o' /\ i_N o <> i_N o' /\
  i_children o <> i_children o'.

(** Every reference is allocated, [Q] and [N] of an instance are two
    dictionaries, and distinct instances share none. *)
Definition heap_wf (h : heap) : Prop :=
  (forall i o, nth_error (instances h) i = Some o ->
     (i_Q o < next_ref h /\ i_N o < next_ref h /\ i_children o < next_ref h)%nat /\
     i_Q o <> i_N o) /\
  (forall i j o o', i <> j -> nth_error (instances h) i = Some o ->
     nth_error (instances h) j = Some o' -> refs_disjoint o o').

End Heap.

(** ** A small game to run the searcher on

    Node [0] has the two moves [[1; 1]] (two actions reaching the same
    state); node [2] has the moves [[3; 4]]; [1], [3] and [4] are terminal.
    A node is its own game state and a move names the next node. *)
Module Toy.
Local Open Scope nat_scope.

Definition children_of_node (n : nat) : list nat :=
  match n with 0 => [1; 1] | 2 => [3; 4] | _ => [] end.

Definition winner_of (g : nat) : option PlayerOrder :=
  match g with 1 | 3 => Some FIRST | 4 => Some SECOND | _ => None end.

Definition player_of (g : nat) : PlayerOrder :=
  match g with 0 | 2 => FIRST | _ => SECOND end.

#[global] Instance toy_game : Game nat nat := {
  winner := winner_of;
  current_player := player_of;
  act := fun _ a => inr a
}.

#[global] Instance toy_node : SearchNode nat nat := {
  node_eq_dec := Nat.eq_dec;
  is_terminal := fun n => match winner_of n with Some _ => true | None => false end;
  find_children := children_of_node;
  find_random_child := fun n => hd n (children_of_node n);
  state := fun n => n
}.

(** Both agents play the first legal move. *)
Definition agent (g : nat) : nat := hd g (children_of_node g).

Definition fresh : @MCTS nat nat nat := new_MCTS [agent; agent] default_exploration_weight.

(** The second searcher state of the run from [0]: the root expanded and
    its child [1] expanded once. *)
Definition toy_s2 : @MCTS nat nat nat := snd (rollouts 2 10 0%nat fresh).

(** The state after three rollouts from [2]. *)
Definition toy_t3 : @MCTS nat nat nat := snd (rollouts 3 10 2%nat fresh).

End Toy.

(** ** More of [mcts.py]: the path of [_select] and the reachable states *)

(** A descent through the searcher's tables: every node but the last is one
    where [_select] goes on, and the next node is listed among its children;
    the last node is one where it stops. *)
Fixpoint descent {game action node : Type} `{SearchNode node game}
    (s : @MCTS game action node) (l : list node) : Prop :=
  match l with
  | [] => False
  | [x] => stops_at s x = true
  | x :: ((y :: _) as l') =>
      stops_at s x = false /\ In y (children_of s x) /\ descent s l'
  end.

(** The node where the loop of [_select] goes after [n]: the last
    unexplored child, or the child [_uct_select] picks ([None] when it
    raises). *)
Definition select_next {game action node : Type} (s : @MCTS game action node)
    (n : node) : option node :=
  match unexplored_of s n with
  | u :: us => Some (last (u :: us) u)
  | [] => match fst (uct_select n s) with Ok m => Some m | _ => None end
  end.

(** A path the loop of [_select] follows: from each node but the last it
    goes on to [select_next], and it stops at the last. *)
Fixpoint select_path {game action node : Type} `{SearchNode node game}
    (s : @MCTS game action node) (l : list node) : Prop :=
  match l with
  | [] => False
  | [x] => stops_at s x = true
  | x :: ((y :: _) as l') =>
      stops_at s x = false /\ select_next s x = Some y /\ select_path s l'
  end.

(** The searcher states that [MCTS(agents, exploration_weight)] reaches by
    [do_rollout] calls that return normally, from any roots ([choose] does
    not change the tables). *)
Inductive reachable {game action node : Type} `{Game game action}
    `{SearchNode node game} : @MCTS game action node -> Prop :=
| reachable_new ags c : reachable (new_MCTS ags c)
| reachable_rollout s fuel root s' :
    reachable s -> do_rollout fuel root s = (Ok tt, s') -> reachable s'.

(** ** [gym_locm/engine/enums.py]: [Phase] *)

Inductive Phase := DRAFT | BATTLE | ENDED.

(** ** [gym_locm/envs/rewards.py]: the health rewards and [parse_reward] *)

(** [PlayerHealthRewardFunction.calculate]: [state.players[for_player].health
    / 30], with [health] giving each player's health. *)
Definition player_health_calculate (health : PlayerOrder -> Z)
    (for_player : PlayerOrder) : Q :=
  inject_Z (health for_player) / inject_Z 30.

(** [OpponentHealthRewardFunction.calculate]:
    [-max(0, state.players[for_player.opposing()].health) / 30]. *)
Definition opponent_health_calculate (health : PlayerOrder -> Z)
    (for_player : PlayerOrder) : Q :=
  Qopp (inject_Z (Z.max 0 (health (opposing for_player)))) / inject_Z 30.

From Stdlib Require Strings.String Strings.Ascii.

Module Rewards.
Import String Ascii.
Local Open Scope string_scope.

Inductive reward_function :=
| WinLossRewardFunction
| PlayerHealthRewardFunction
| OpponentHealthRewardFunction.

Definition available_rewards : list (string * reward_function) :=
  [("win-loss", WinLossRewardFunction);
   ("player-health", PlayerHealthRewardFunction);
   ("opponent-health", OpponentHealthRewardFunction)].

(** [d[k]] on a dictionary with string keys; [None] is the [KeyError]. *)
Fixpoint lookup {A : Type} (k : string) (d : list (string * A)) : option A :=
  match d with
  | [] => None
  | (k', v) :: d' => if String.eqb k k' then Some v else lookup k d'
  end.

(** [str.lower()] on the ASCII letters. *)
Definition lower_char (c : ascii) : ascii :=
  let n := nat_of_ascii c in
  if (Nat.leb 65 n && Nat.leb n 90)%bool then ascii_of_nat (n + 32) else c.

Fixpoint lower (s : string) : string :=
  match s with
  | EmptyString => EmptyString
  | String c s' => String (lower_char c) (lower s')
  end.

(** [str.replace(" ", "-")] *)
Fixpoint replace_space (s : string) : string :=
  match s with
  | EmptyString => EmptyString
  | String c s' =>
      String (if Ascii.eqb c " "%char then "-"%char else c) (replace_space s')
  end.

Definition parse_reward (reward_name : string) : option reward_function :=
  lookup (replace_space (lower reward_name)) available_rewards.

(** [str.upper()] on the ASCII letters, to spell a name in capitals. *)
Definition upper_char (c : ascii) : ascii :=
  let n := nat_of_ascii c in
  if (Nat.leb 97 n && Nat.leb n 122)%bool then ascii_of_nat (n - 32) else c.

Fixpoint upper (s : string) : string :=
  match s with
  | EmptyString => EmptyString
  | String c s' => String (upper_char c) (upper s')
  end.

(** A name with some of its hyphens written as spaces: [spaces] says, hyphen
    by hyphen, whether to write a space. *)
Fixpoint hyphens_to_spaces (spaces : list bool) (s : string) : string :=
  match s with
  | EmptyString => EmptyString
  | String c s' =>
      if Ascii.eqb c "-"%char then
        match spaces with
        | b :: bs => String (if b then " "%char else c) (hyphens_to_spaces bs s')
        | [] => String c (hyphens_to_spaces [] s')
        end
      else String c (hyphens_to_spaces spaces s')
  end.

End Rewards.

(** ** [gym_locm/toolbox/runner.py]: [evaluate] and [run] *)

(** The game's [phase] attribute. *)
Class HasPhase (game : Type) := { phase : game -> Phase }.

Section Runner.
Context {game action : Type} `{Game game action} `{HasPhase game}.

(** [engine.Game(seed=...)] *)
Variable new_game : Z -> game.

(** A player: its draft bot and its battle bot, each as its [act] method
    (after [reset()]). *)
Definition bots : Type := ((game -> action) * (game -> action))%type.

(** The two tuples [run] passes to [evaluate]: [(i, player_1, player_2,
    args.seed)] when profiling, [(j, player_1, player_2, args.seed,
    args.silent)] otherwise. *)
Inductive params :=
| Params4 (game_id : Z) (player_1 player_2 : bots) (seed : Z)
| Params5 (game_id : Z) (player_1 player_2 : bots) (seed : Z) (silent : bool).

(** The shared list [wins_by_p0 = [wins, games]]. *)
Definition counters : Type := (Z * Z)%type.

(** [draft_bots[game.current_player.id]] and the like, on a pair. *)
Definition bot_of (bs : bots) (p : PlayerOrder) : game -> action :=
  match p with FIRST => fst bs | SECOND => snd bs end.

(** The [while game.winner is None] loop of [evaluate], with fuel. *)
Fixpoint run_game (draft_bots battle_bots : bots) (fuel : nat) (g : game)
    : outcome game :=
  match fuel with
  | O => Diverge
  | S f =>
    match winner g with
    | Some _ => Ok g
    | None =>
      let bot := match phase g with
                 | DRAFT => bot_of draft_bots (current_player g)
                 | _ => bot_of battle_bots (current_player g)
                 end in
      match act g (bot g) with
      | inl e => Raise (EngineError e)
      | inr g' => run_game draft_bots battle_bots f g'
      end
    end
  end.

(** [def evaluate(params)]: unpacking four values into five names raises
    [ValueError]; the counters are updated under [lock] once the game is
    over; [ratio] has [games >= 1] and the [print] is output only. *)
Definition evaluate (fuel : nat) (p : params) : St counters (option PlayerOrder) :=
  fun c =>
    match p with
    | Params4 _ _ _ _ => (Raise ValueError, c)
    | Params5 game_id player_1 player_2 seed silent =>
      let draft_bots := (fst player_1, fst player_2) in
      let battle_bots := (snd player_1, snd player_2) in
      match run_game draft_bots battle_bots fuel (new_game (seed + game_id)) with
      | Ok g =>
          (Ok (winner g),
           ((fst c + if winner_eqb (winner g) FIRST then 1 else 0)%Z,
            (snd c + 1)%Z))
      | Raise e => (Raise e, c)
      | Diverge => (Diverge, c)
      end
    end.

(** [evaluate] over a list of tuples, collecting the returned winners; for
    [pool.map] the updates are made under [lock], so a map whose calls all
    return gives the counters of this sequential run. *)
Fixpoint evaluate_all (fuel : nat) (ps : list params)
    : St counters (list (option PlayerOrder)) :=
  match ps with
  | [] => ret []
  | p :: ps' => w <- evaluate fuel p ;; ws <- evaluate_all fuel ps' ;; ret (w :: ws)
  end.

(** [range(args.games)] *)
Definition range (n : Z) : list Z := map Z.of_nat (seq 0 (Z.to_nat n)).

(** [def run()] from [if args.profile:] on (the arguments parsed and the
    players built; [processes] is [args.processes]); the result is the
    final [ratio]. *)
Definition run (fuel : nat) (games seed processes : Z) (silent profile : bool)
    (player_1 player_2 : bots) : St counters Q :=
  (if profile
   then evaluate_all fuel (map (fun i => Params4 i player_1 player_2 seed) (range games))
   else if Z.ltb processes 1
   then throw ValueError   (* [Pool(args.processes)] with fewer than one process *)
   else evaluate_all fuel
          (map (fun j => Params5 j player_1 player_2 seed silent) (range games))) ;;
  fun c =>
    if Z.eqb (snd c) 0 then (Raise ZeroDivisionError, c)
    else (Ok (inject_Z (100 * fst c) / inject_Z (snd c)), c).

End Runner.

(** ** [gym_locm/util/interleaved-self-play.py]: [nminibatches] in
    [train_and_eval] *)

(** [while params['n_steps'] % params['nminibatches'] != 0:
    params['nminibatches'] -= 1], with fuel; Python's [%] is [Z.modulo] for
    a nonzero divisor and raises [ZeroDivisionError] for 0. *)
Fixpoint nminibatches_loop (fuel : nat) (n_steps nminibatches : Z) : outcome Z :=
  match fuel with
  | O => Diverge
  | S f =>
    if Z.eqb nminibatches 0 then Raise ZeroDivisionError
    else if negb (Z.eqb (Z.modulo n_steps nminibatches) 0)
    then nminibatches_loop f n_steps (nminibatches - 1)
    else Ok nminibatches
  end.

(** [params['nminibatches'] = min(params['nminibatches'], params['n_steps'])]
    followed by the loop. *)
Definition fix_nminibatches (fuel : nat) (n_steps nminibatches : Z) : outcome Z :=
  nminibatches_loop fuel n_steps (Z.min nminibatches n_steps).

(** A game for the runner: the small game of [Toy], in its battle phase. *)
Module ToyRunner.
#[global] Instance toy_phase : HasPhase nat := { phase := fun _ => BATTLE }.

Definition player : bots := (Toy.agent, Toy.agent).

Definition new_game (seed : Z) : nat := if Z.even seed then 0%nat else 2%nat.
End ToyRunner.

(** The searcher without agents: its first simulation raises [IndexError]. *)
Definition toy_no_agents : @MCTS nat nat nat := new_MCTS [] default_exploration_weight.

(** * Proofs *)

(** ** [max(xs, key=f)] *)
Section MaxBy.
Context {A K : Type} (gtb : K -> K -> bool) (key : A -> K).
Hypothesis gtb_asym : forall a b, gtb a b = true -> gtb b a = false.
Hypothesis le_trans :
  forall a b c, gtb a b = false -> gtb b c = false -> gtb a c = false.

Lemma max_by_from_in (best : A) (l : list A) :
  In (max_by_from gtb key best l) (best :: l).
Proof.
  revert best; induction l as [|x l IH]; intros best; simpl; [now left|].
  destruct (gtb (key x) (key best)).
  - destruct (IH x) as [E|E]; [right; left; exact E|right; right; exact E].
  - destruct (IH best) as [E|E]; [left; exact E|right; right; exact E].
Qed.

Lemma max_by_from_max (best : A) (l : list A) :
  forall y, In y (best :: l) ->
    gtb (key y) (key (max_by_from gtb key best l)) = false.
Proof.
  revert best; induction l as [|x l IH]; intros best y Hy; simpl.
  - destruct Hy as [<-|[]].
    destruct (gtb (key best) (key best)) eqn:E; [|reflexivity].
    pose proof (gtb_asym _ _ E) as E'; congruence.
  - destruct (gtb (key x) (key best)) eqn:Ex.
    + destruct Hy as [<-|Hy].
      * apply (le_trans _ (key x)); [now apply gtb_asym|].
        apply IH; now left.
      * apply IH; exact Hy.
    + destruct Hy as [<-|[<-|Hy]].
      * apply IH; now left.
      * apply (le_trans _ (key best)); [exact Ex|]. apply IH; now left.
      * apply IH; now right.
Qed.

Lemma max_by_in (l : list A) (m : A) :
  max_by gtb key l = Some m -> In m l.
Proof.
  destruct l as [|x l]; simpl; [discriminate|].
  intros E; injection E as <-; apply max_by_from_in.
Qed.

Lemma max_by_max (l : list A) (m : A) :
  max_by gtb key l = Some m -> forall y, In y l -> gtb (key y) (key m) = false.
Proof.
  destruct l as [|x l]; simpl; [discriminate|].
  intros E; injection E as <-; apply max_by_from_max.
Qed.

End MaxBy.

Lemma max_by_from_const {A K} (gtb : K -> K -> bool) (key : A -> K) (x : A) l :
  Forall (fun y => y = x) l -> max_by_from gtb key x l = x.
Proof.
  induction 1 as [|y l Hy _ IH]; simpl; [reflexivity|].
  subst y; destruct (gtb (key x) (key x)); exact IH.
Qed.

Lemma R_gtb_asym a b : R_gtb a b = true -> R_gtb b a = false.
Proof.
  unfold R_gtb; destruct (Rlt_dec b a) as [H1|]; [|discriminate].
  destruct (Rlt_dec a b) as [H2|]; [|reflexivity].
  exfalso; exact (Rlt_asym _ _ H1 H2).
Qed.

Lemma R_gtb_false a b : R_gtb a b = false <-> (a <= b)%R.
Proof.
  unfold R_gtb; destruct (Rlt_dec b a) as [H1|H1]; split; intros H2.
  - discriminate.
  - exfalso; exact (Rle_not_lt _ _ H2 H1).
  - now apply Rnot_lt_le.
  - reflexivity.
Qed.

Lemma R_gtb_le_trans a b c :
  R_gtb a b = false -> R_gtb b c = false -> R_gtb a c = false.
Proof.
  rewrite !R_gtb_false; apply Rle_trans.
Qed.

Lemma escore_gtb_asym a b : escore_gtb a b = true -> escore_gtb b a = false.
Proof.
  destruct a as [|x], b as [|y]; simpl; try reflexivity; try discriminate.
  intros H; apply negb_true_iff in H; apply negb_false_iff.
  apply Qle_bool_iff; apply Qlt_le_weak, Qnot_le_lt.
  intros H'; apply Qle_bool_iff in H'; congruence.
Qed.

Lemma escore_gtb_le_trans a b c :
  escore_gtb a b = false -> escore_gtb b c = false -> escore_gtb a c = false.
Proof.
  destruct a as [|x], b as [|y], c as [|z]; simpl; try reflexivity;
    try discriminate.
  intros H1 H2; apply negb_false_iff in H1, H2; apply negb_false_iff.
  apply Qle_bool_iff in H1, H2; apply Qle_bool_iff; eapply Qle_trans; eauto.
Qed.

(** [max] keeps the first maximal item: every item before it has a
    strictly smaller key. *)
Section MaxByFirst.
Context {A K : Type} (gtb : K -> K -> bool) (key : A -> K).
Hypothesis gtb_asym : forall a b, gtb a b = true -> gtb b a = false.
Hypothesis gtb_gt_ge :
  forall a b c, gtb a b = true -> gtb c b = false -> gtb a c = true.

Lemma max_by_from_first (best : A) (l : list A) :
  exists l1 l2, best :: l = l1 ++ max_by_from gtb key best l :: l2 /\
    forall x, In x l1 -> gtb (key (max_by_from gtb key best l)) (key x) = true.
Proof.
  revert best; induction l as [|x l IH]; intros best; simpl.
  - exists [], []; split; [reflexivity|intros _ []].
  - destruct (gtb (key x) (key best)) eqn:Exb.
    + destruct (IH x) as (l1 & l2 & E & Hl1).
      exists (best :: l1), l2; split; [simpl; now rewrite <- E|].
      intros y [<-|Hy]; [|exact (Hl1 y Hy)].
      destruct l1 as [|z l1]; simpl in E.
      * injection E as <- _; exact Exb.
      * injection E as -> _.
        apply (gtb_gt_ge _ (key z)); [exact (Hl1 z (or_introl eq_refl))|].
        exact (gtb_asym _ _ Exb).
    + destruct (IH best) as (l1 & l2 & E & Hl1).
      destruct l1 as [|z l1]; simpl in E.
      * injection E as Em El.
        exists [], (x :: l2); split; [simpl; rewrite <- Em, El; reflexivity|].
        intros _ [].
      * injection E as <- El.
        exists (best :: x :: l1), l2; split; [simpl; do 2 f_equal; exact El|].
        intros y [<-|[<-|Hy]].
        -- exact (Hl1 best (or_introl eq_refl)).
        -- exact (gtb_gt_ge _ _ _ (Hl1 best (or_introl eq_refl)) Exb).
        -- exact (Hl1 y (or_intror Hy)).
Qed.

Lemma max_by_first (l : list A) (m : A) :
  max_by gtb key l = Some m ->
  exists l1 l2, l = l1 ++ m :: l2 /\ forall x, In x l1 -> gtb (key m) (key x) = true.
Proof.
  destruct l as [|x l]; simpl; [discriminate|].
  injection 1 as <-; apply max_by_from_first.
Qed.

End MaxByFirst.

Lemma escore_gtb_gt_ge a b c :
  escore_gtb a b = true -> escore_gtb c b = false -> escore_gtb a c = true.
Proof.
  destruct a as [|x], b as [|y], c as [|z]; simpl; try discriminate; auto.
  intros Hxy Hzy; apply negb_true_iff in Hxy; apply negb_false_iff in Hzy.
  apply negb_true_iff.
  destruct (Qle_bool x z) eqn:Exz; [|reflexivity].
  apply Qle_bool_iff in Exz, Hzy.
  assert (Hxy' : ~ x <= y) by (intros Hle; apply Qle_bool_iff in Hle; congruence).
  exfalso; apply Hxy'; exact (Qle_trans _ _ _ Exz Hzy).
Qed.

Lemma last_In_nonempty {A} (l : list A) (d : A) : l <> [] -> In (last l d) l.
Proof.
  induction l as [|a l IH]; intros Hl; [congruence|].
  destruct l as [|b l]; [now left|].
  right; apply IH; discriminate.
Qed.

Lemma last_In {A} (u : A) (us : list A) : In (last (u :: us) u) (u :: us).
Proof. apply last_In_nonempty; discriminate. Qed.

Lemma filter_negb_nil_forallb {A} (f : A -> bool) (l : list A) :
  filter (fun i => negb (f i)) l = [] -> forallb f l = true.
Proof.
  induction l as [|x l IH]; simpl; [reflexivity|].
  destruct (f x); simpl; [exact IH|discriminate].
Qed.

Ltac split_matches :=
  repeat match goal with
  | |- context [if ?b then _ else _] =>
      let E := fresh "E" in destruct b eqn:E
  | |- context [match ?x with [] => _ | _ :: _ => _ end] =>
      let E := fresh "E" in destruct x eqn:E
  | |- context [match ?x with Some _ => _ | None => _ end] =>
      let E := fresh "E" in destruct x eqn:E
  end.

Section Rollout.
Context {game action : Type} `{Game game action}.
Context {node : Type} `{SearchNode node game}.

Local Abbreviation State := (@MCTS game action node).

(** *** [_backpropagate] *)

Lemma backprop_fold (reward : Z) (l : list node) (s : State) (x : node) :
  let s' := fold_left (backprop_node reward) l s in
  (Nt s' x = Nt s x + Z.of_nat (count_occ node_eq_dec l x))%Z /\
  (Qt s' x = Qt s x + Z.of_nat (count_occ node_eq_dec l x)
                      * signed_reward reward x)%Z /\
  children s' = children s /\ agents s' = agents s /\
  exploration_weight s' = exploration_weight s.
Proof.
  revert s; induction l as [|a l IH]; intros s; simpl.
  - rewrite !Z.add_0_r; repeat split.
  - destruct (IH (backprop_node reward s a)) as (HN & HQ & HC & HA & HE).
    rewrite HN, HQ, HC, HA, HE; simpl.
    unfold signed_reward.
    destruct (node_eq_dec x a) as [Exa|Hxa].
    + subst x; destruct (node_eq_dec a a) as [_|]; [|congruence].
      rewrite Nat2Z.inj_succ; destruct (moves_first a); repeat split; lia.
    + destruct (node_eq_dec a x) as [|_]; [congruence|repeat split].
Qed.

(** *** [_uct_select], [_select], [_expand], [_simulate] *)

Lemma uct_select_spec (n : node) (s : State) o s' :
  uct_select n s = (o, s') ->
  s' = s /\ (forall m, o = Ok m -> In m (children_of s n)).
Proof.
  unfold uct_select; cbv zeta; split_matches; intros Hr;
    injection Hr as <- <-; split; try reflexivity; intros m Hm;
    try discriminate.
  injection Hm as <-. eapply max_by_in; eassumption.
Qed.

Lemma select_loop_state (f : nat) (pre : list node) (n : node) (s : State) o s' :
  select_loop f pre n s = (o, s') -> s' = s.
Proof.
  revert pre n s'; induction f as [|f IH]; intros pre n s' Hs; simpl in Hs.
  - now injection Hs as _ <-.
  - destruct (stops_at s n); [now injection Hs as _ <-|].
    destruct (unexplored_of s n) as [|u us]; [|now injection Hs as _ <-].
    unfold bind in Hs.
    destruct (uct_select n s) as [o1 s1] eqn:Eu.
    apply uct_select_spec in Eu as [-> _].
    destruct o1 as [m| |]; [exact (IH _ _ _ Hs)|now injection Hs as _ <-..].
Qed.

Lemma stops_at_false (s : State) (n : node) :
  stops_at s n = false -> is_key s n = true /\ is_terminal n = false.
Proof.
  unfold stops_at; intros E; apply orb_false_iff in E as [E E'].
  apply orb_false_iff in E as [E _]; apply negb_false_iff in E; auto.
Qed.

Lemma unexplored_in (s : State) (n u : node) :
  In u (unexplored_of s n) -> In u (children_of s n) /\ is_key s u = false.
Proof.
  unfold unexplored_of; intros Hu; apply filter_In in Hu as [Hu Hk].
  apply negb_true_iff in Hk; auto.
Qed.


Lemma expand_spec (n : node) (s : State) :
  fst (expand n s) = Ok tt /\
  (is_key s n = true -> snd (expand n s) = s) /\
  (is_key s n = false -> snd (expand n s) = set_children s n (find_children n)).
Proof.
  unfold expand; destruct (is_key s n); repeat split; intros; congruence.
Qed.

Lemma expand_consistent (n : node) (s : State) :
  children_consistent s -> children_consistent (snd (expand n s)).
Proof.
  unfold expand; destruct (is_key s n); simpl; [tauto|].
  unfold children_consistent, set_children; simpl; intros Hinv k l.
  destruct (node_eq_dec k n) as [->|_]; [|apply Hinv].
  now injection 1 as <-.
Qed.

Lemma expand_Nt (n : node) (s : State) : Nt (snd (expand n s)) = Nt s.
Proof. unfold expand; destruct (is_key s n); reflexivity. Qed.

Lemma simulate_state (fuel : nat) (n : node) (s : State) :
  snd (simulate fuel n s) = s.
Proof. reflexivity. Qed.

(** The loop of [_select] follows [select_next]. *)
Lemma select_loop_path (f : nat) (pre : list node) (n : node) (s : State) p s' :
  select_loop f pre n s = (Ok p, s') ->
  exists q, p = pre ++ q /\ hd_error q = Some n /\ select_path s q.
Proof.
  revert pre n s'; induction f as [|f IH]; intros pre n s' Hs; simpl in Hs;
    [discriminate|].
  destruct (stops_at s n) eqn:Est.
  { injection Hs as <- _; exists [n]; simpl; auto. }
  destruct (unexplored_of s n) as [|u us] eqn:Eun.
  - unfold bind in Hs.
    destruct (uct_select n s) as [o1 s1] eqn:Eu.
    pose proof Eu as Eu'; apply uct_select_spec in Eu' as [-> _].
    destruct o1 as [m| |]; [|discriminate..].
    destruct (IH _ _ _ Hs) as (q & -> & Hq & Hd).
    exists (n :: q); split; [now rewrite <- app_assoc|split; [reflexivity|]].
    destruct q as [|m' q]; [discriminate|]; simpl in Hq; injection Hq as ->.
    refine (conj Est (conj _ Hd)).
    unfold select_next; rewrite Eun, Eu; reflexivity.
  - injection Hs as <- _.
    assert (Hl : In (last (u :: us) u) (unexplored_of s n))
      by (rewrite Eun; apply last_In).
    apply unexplored_in in Hl as [_ Hk].
    exists [n; last (u :: us) u]; split; [now rewrite <- app_assoc|].
    split; [reflexivity|]; cbn [select_path].
    split; [exact Est|split; [unfold select_next; rewrite Eun; reflexivity|]].
    unfold stops_at; rewrite Hk; reflexivity.
Qed.

(** The path from a node is determined by the node. *)
Lemma select_path_unique (s : State) (x : node) (l1 l2 : list node) :
  select_path s (x :: l1) -> select_path s (x :: l2) -> l1 = l2.
Proof.
  revert x l2; induction l1 as [|y l1 IH]; intros x l2 H1 H2.
  - destruct l2 as [|y' l2]; [reflexivity|].
    simpl in H1, H2; destruct H2 as [H2 _]; congruence.
  - destruct l2 as [|y' l2].
    + simpl in H1, H2; destruct H1 as [H1 _]; congruence.
    + destruct H1 as (_ & Hy & H1); destruct H2 as (_ & Hy' & H2).
      rewrite Hy in Hy'; injection Hy' as <-.
      f_equal; exact (IH _ _ H1 H2).
Qed.

Lemma select_path_suffix (s : State) (l0 l : list node) :
  l <> [] -> select_path s (l0 ++ l) -> select_path s l.
Proof.
  intros Hl; induction l0 as [|x l0 IH]; simpl; [tauto|].
  intros Hp; apply IH.
  destruct (l0 ++ l) as [|y r] eqn:E.
  - apply app_eq_nil in E as [_ E]; contradiction.
  - exact (proj2 (proj2 Hp)).
Qed.

(** A returned path never repeats a node: from a repeated node the loop
    would go round again, as the tables do not change during [_select]. *)
Lemma select_path_NoDup (s : State) (l : list node) :
  select_path s l -> NoDup l.
Proof.
  induction l as [|x l IH]; intros Hp; [constructor|].
  destruct l as [|y l].
  { repeat constructor; intros []. }
  assert (Hl : select_path s (y :: l)) by exact (proj2 (proj2 Hp)).
  constructor; [|exact (IH Hl)].
  intros Hin; apply in_split in Hin as (a & b & E).
  assert (Hb : select_path s (x :: b)).
  { apply (select_path_suffix s a); [discriminate|rewrite <- E; exact Hl]. }
  pose proof (select_path_unique s x (y :: l) b Hp Hb) as Eb.
  assert (Hlen : length (y :: l) = length (a ++ x :: b)) by now rewrite E.
  rewrite Eb, length_app in Hlen; simpl in Hlen; lia.
Qed.

(** One rollout that returns normally: the path it walks starts at the root,
    has no repeated node, and is added once more to [N]. *)
Lemma do_rollout_step (fuel : nat) (root : node) (s s' : State) :
  do_rollout fuel root s = (Ok tt, s') ->
  exists p', NoDup (root :: p') /\
    forall x, Nt s' x = (Nt s x + Z.of_nat (count_occ node_eq_dec (root :: p') x))%Z.
Proof.
  intros Hr; unfold do_rollout, bind in Hr.
  destruct (select fuel root s) as [o1 s1] eqn:Es.
  pose proof (select_loop_state _ _ _ _ _ _ Es) as ->.
  destruct o1 as [p| |]; [|discriminate..].
  destruct (select_loop_path _ _ _ _ _ _ Es) as (q & Hp & Hq & Hd);
    simpl in Hp; subst q.
  destruct p as [|r p']; [discriminate|]; simpl in Hq; injection Hq as ->.
  pose proof (select_path_NoDup s _ Hd) as Hnd.
  pose proof (expand_spec (last (root :: p') root) s) as [Hok _].
  pose proof (expand_Nt (last (root :: p') root) s) as HN2.
  destruct (expand (last (root :: p') root) s) as [o2 s2]; simpl in Hok, HN2.
  subst o2.
  unfold simulate in Hr.
  destruct (play (agents s2) fuel (state (last (root :: p') root))) as [g| |];
    [|discriminate..].
  unfold backpropagate in Hr; injection Hr as <-.
  exists p'; split; [exact Hnd|]; intros x.
  rewrite (proj1 (backprop_fold _ _ s2 x)).
  change (rev p' ++ [root]) with (rev (root :: p')).
  rewrite count_occ_rev, HN2; reflexivity.
Qed.

Lemma rollouts_visits (k fuel : nat) (root : node) ags c (s' : State) :
  rollouts k fuel root (new_MCTS ags c) = (Ok tt, s') ->
  Nt s' root = Z.of_nat k /\ forall x, (0 <= Nt s' x <= Z.of_nat k)%Z.
Proof.
  revert s'; induction k as [|k IH]; intros s' Hr; simpl in Hr.
  - unfold ret in Hr; injection Hr as <-; simpl.
    split; [reflexivity|intros; lia].
  - unfold bind in Hr.
    destruct (rollouts k fuel root (new_MCTS ags c)) as [o1 s1] eqn:E1.
    destruct o1 as [[]| |]; [|discriminate..].
    destruct (IH _ eq_refl) as (Hroot & Hall).
    destruct (do_rollout_step _ _ _ _ Hr) as (p' & Hnd & HN).
    pose proof (proj1 (NoDup_count_occ node_eq_dec _) Hnd) as Hle.
    split.
    + rewrite HN, Hroot; simpl.
      destruct (node_eq_dec root root) as [_|]; [|congruence].
      apply NoDup_cons_iff in Hnd as [Hni _].
      rewrite (count_occ_not_In node_eq_dec) in Hni; rewrite Hni; lia.
    + intros x; rewrite HN; specialize (Hall x); specialize (Hle x); lia.
Qed.

End Rollout.

(** ** Helper lemmas on the searcher *)
Section Steps.
Context {game action : Type} `{Game game action}.
Context {node : Type} `{SearchNode node game}.

Local Abbreviation State := (@MCTS game action node).

Lemma forallb_filter_negb_nil {A} (f : A -> bool) (l : list A) :
  forallb f l = true -> filter (fun i => negb (f i)) l = [].
Proof.
  induction l as [|x l IH]; simpl; [reflexivity|].
  intros Hx; apply andb_true_iff in Hx as [-> Hl]; simpl; auto.
Qed.

Lemma select_loop_descend (f : nat) (pre : list node) (n m : node) (s : State) :
  stops_at s n = false -> unexplored_of s n = [] ->
  uct_select n s = (Ok m, s) ->
  select_loop (S f) pre n s = select_loop f (pre ++ [n]) m s.
Proof.
  intros H1 H2 H3; simpl; rewrite H1, H2; unfold bind; rewrite H3; reflexivity.
Qed.

Lemma uct_select_max (n : node) (s : State) :
  forallb (is_key s) (children_of s n) = true -> (0 < Nt s n)%Z ->
  (forall c, In c (children_of s n) -> Nt s c <> 0%Z) ->
  children_of s n <> [] ->
  exists m, uct_select n s = (Ok m, s) /\ In m (children_of s n) /\
    forall c, In c (children_of s n) -> (uct_score s n c <= uct_score s n m)%R.
Proof.
  intros Hk Hn Hc Hne; unfold uct_select; cbv zeta.
  rewrite Hk; simpl.
  destruct (Z.leb_spec (Nt s n) 0) as [Hle|_]; [lia|].
  destruct (children_of s n) as [|x l] eqn:El; [congruence|].
  destruct (existsb (fun n0 => Z.eqb (Nt s n0) 0) (x :: l)) eqn:Ez.
  { apply existsb_exists in Ez as (c & Hin & Hz).
    apply Z.eqb_eq in Hz; exfalso; exact (Hc c Hin Hz). }
  destruct (max_by R_gtb (uct_score s n) (x :: l)) as [m|] eqn:Em;
    [|discriminate].
  exists m; split; [reflexivity|split].
  - eapply max_by_in; exact Em.
  - intros c Hin; apply R_gtb_false.
    exact (max_by_max R_gtb _ R_gtb_asym R_gtb_le_trans _ _ Em c Hin).
Qed.

Lemma play_ok_winner ags fuel g g' :
  play ags fuel g = Ok g' -> winner g' <> None.
Proof.
  revert g; induction fuel as [|f IH]; intros g Hp; simpl in Hp; [discriminate|].
  destruct (winner g) as [w|] eqn:Ew.
  - injection Hp as <-; rewrite Ew; discriminate.
  - destruct (nth_error ags _) as [agent|]; [|discriminate].
    destruct (act g (agent g)) as [e|g1]; [discriminate|exact (IH _ Hp)].
Qed.

Lemma play_no_assertion ags fuel g : raised_assertion (play ags fuel g) = false.
Proof.
  revert g; induction fuel as [|f IH]; intros g; simpl; [reflexivity|].
  destruct (winner g); [reflexivity|].
  destruct (nth_error ags _) as [agent|]; [|reflexivity].
  destruct (act g (agent g)); [reflexivity|apply IH].
Qed.

Lemma uct_select_no_assertion (n : node) (s : State) :
  forallb (is_key s) (children_of s n) = true ->
  raised_assertion (fst (uct_select n s)) = false.
Proof.
  intros Hk; unfold uct_select; cbv zeta; rewrite Hk; simpl.
  split_matches; reflexivity.
Qed.

Lemma select_loop_no_assertion (f : nat) (pre : list node) (n : node) (s : State) :
  raised_assertion (fst (select_loop f pre n s)) = false.
Proof.
  revert pre n; induction f as [|f IH]; intros pre n; simpl; [reflexivity|].
  destruct (stops_at s n); [reflexivity|].
  destruct (unexplored_of s n) as [|u us] eqn:Eun; [|reflexivity].
  unfold bind.
  pose proof (uct_select_no_assertion n s) as Hu.
  unfold unexplored_of in Eun.
  specialize (Hu (filter_negb_nil_forallb _ _ Eun)).
  destruct (uct_select n s) as [o1 s1] eqn:Eu.
  apply uct_select_spec in Eu as [-> _].
  destruct o1 as [m| |]; simpl in Hu |- *; [apply IH|exact Hu|reflexivity].
Qed.

End Steps.

(** ** The claims *)
(** *** The objects of [MCTS] instances *)
Section HeapFacts.
Context {game action : Type} `{Game game action}.
Context {node : Type} `{SearchNode node game}.

Local Abbreviation State := (@MCTS game action node).
Local Abbreviation Heap := (@heap game action node).

(** A method call changes neither [self.agents] nor
    [self.exploration_weight]. *)
Lemma call_state_attrs (c : call) (s : State) :
  agents (call_state c s) = agents s /\
  exploration_weight (call_state c s) = exploration_weight s.
Proof.
  destruct c as [fuel root|n]; simpl.
  - unfold do_rollout, bind.
    destruct (select fuel root s) as [o1 s1] eqn:Es.
    pose proof (select_loop_state _ _ _ _ _ _ Es) as ->.
    destruct o1 as [p| |]; [|split; reflexivity..].
    assert (Hx : agents (snd (expand (last p root) s)) = agents s /\
                 exploration_weight (snd (expand (last p root) s))
                 = exploration_weight s)
      by (unfold expand; destruct (is_key s (last p root)); split; reflexivity).
    destruct (expand (last p root) s) as [o2 s2]; simpl in Hx |- *.
    destruct o2 as [[]| |]; [|exact Hx..].
    unfold simulate, backpropagate.
    destruct (play (agents s2) fuel (state (last p root))) as [g| |]; simpl; [|exact Hx..].
    destruct (backprop_fold (mcts_reward (winner g)) (rev p) s2 root)
      as (_ & _ & _ & HA & HE).
    rewrite HA, HE; exact Hx.
  - unfold choose; split_matches; split; reflexivity.
Qed.

Lemma upd_same {V : Type} (f : nat -> V) (r : nat) (v : V) : upd f r v r = v.
Proof. unfold upd; now rewrite Nat.eqb_refl. Qed.

Lemma upd_other {V : Type} (f : nat -> V) (r r' : nat) (v : V) :
  r' <> r -> upd f r v r' = f r'.
Proof. unfold upd; intros Hr; now apply Nat.eqb_neq in Hr as ->. Qed.

Lemma nth_error_snoc {A} (l : list A) (x y : A) (i : nat) :
  nth_error (l ++ [x]) i = Some y ->
  nth_error l i = Some y \/ (i = length l /\ y = x).
Proof.
  intros Hi; destruct (Nat.lt_ge_cases i (length l)) as [Hlt|Hge].
  - left; rewrite nth_error_app1 in Hi by exact Hlt; exact Hi.
  - right; rewrite nth_error_app2 in Hi by exact Hge.
    destruct (i - length l)%nat as [|k] eqn:Ek; simpl in Hi.
    + injection Hi as ->; split; [lia|reflexivity].
    + destruct k; discriminate.
Qed.

Lemma heap_wf_empty : heap_wf (empty_heap : Heap).
Proof.
  split; intros i; [intros o|intros j o o' _]; destruct i; discriminate.
Qed.

(** The well-formedness of a heap reads only the instances and the next
    free reference. *)
Lemma heap_wf_same (h h' : Heap) :
  instances h' = instances h -> next_ref h' = next_ref h ->
  heap_wf h -> heap_wf h'.
Proof. unfold heap_wf; intros -> ->; exact (fun x => x). Qed.

Lemma heap_wf_refs (h : Heap) (i : nat) (o : instance) :
  heap_wf h -> nth_error (instances h) i = Some o ->
  (i_Q o < next_ref h /\ i_N o < next_ref h /\ i_children o < next_ref h)%nat.
Proof. intros [Hw _] Ho; exact (proj1 (Hw i o Ho)). Qed.

Lemma new_instance_wf (h : Heap) ags c :
  heap_wf h -> heap_wf (new_instance h ags c).
Proof.
  intros Hw; pose proof (heap_wf_refs h) as Hr; destruct Hw as [Hw Hd].
  split; simpl.
  - intros i o Ho; apply nth_error_snoc in Ho as [Ho|[_ ->]]; simpl.
    + destruct (Hw i o Ho) as [(H1 & H2 & H3) H4]; repeat split; try lia; exact H4.
    + repeat split; lia.
  - intros i j o o' Hij Ho Ho'.
    apply nth_error_snoc in Ho as [Ho|[-> ->]];
      apply nth_error_snoc in Ho' as [Ho'|[-> ->]].
    + exact (Hd i j o o' Hij Ho Ho').
    + destruct (Hr i o (conj Hw Hd) Ho) as (H1 & H2 & H3).
      unfold refs_disjoint; simpl; repeat split; lia.
    + destruct (Hr j o' (conj Hw Hd) Ho') as (H1 & H2 & H3).
      unfold refs_disjoint; simpl; repeat split; lia.
    + congruence.
Qed.

Lemma run_call_wf (h : Heap) (i : nat) (c : call) :
  heap_wf h -> heap_wf (run_call h i c).
Proof.
  unfold run_call; destruct (nth_error (instances h) i); [|exact (fun x => x)].
  apply heap_wf_same; reflexivity.
Qed.

Lemma run_call_instances (h : Heap) (i : nat) (c : call) :
  instances (run_call h i c) = instances h.
Proof. unfold run_call; destruct (nth_error (instances h) i); reflexivity. Qed.

Lemma run_calls_wf (h : Heap) (i : nat) (cs : list call) :
  heap_wf h -> heap_wf (run_calls h i cs).
Proof.
  unfold run_calls; revert h; induction cs as [|c cs IH]; intros h Hw;
    simpl; [exact Hw|].
  apply IH, run_call_wf, Hw.
Qed.

Lemma run_ops_wf (h : Heap) (xs : list op) :
  heap_wf h -> heap_wf (run_ops h xs).
Proof.
  unfold run_ops; revert h; induction xs as [|x xs IH]; intros h Hw;
    simpl; [exact Hw|].
  apply IH; destruct x; [apply new_instance_wf|apply run_call_wf]; exact Hw.
Qed.

(** Writing an instance's tables back and reading them again gives the
    tables written, when the attributes are the instance's own. *)
Lemma load_store_self (h : Heap) (i : nat) (o : instance) (s : State) :
  heap_wf h -> nth_error (instances h) i = Some o ->
  agents s = i_agents o -> exploration_weight s = i_exploration_weight o ->
  load (store h o s) o = s.
Proof.
  intros [Hw _] Ho HA HE; destruct (Hw i o Ho) as [_ Hqn].
  unfold load, store; simpl.
  rewrite (upd_other _ (i_N o) (i_Q o)) by exact Hqn.
  rewrite !upd_same.
  destruct s; simpl in *; subst; reflexivity.
Qed.

Lemma load_store_other (h : Heap) (o o' : instance) (s : State) :
  refs_disjoint o' o -> load (store h o s) o' = load h o'.
Proof.
  intros (H1 & H2 & H3 & H4 & H5); unfold load, store; simpl.
  rewrite (upd_other _ (i_N o) (i_Q o')) by exact H2.
  rewrite (upd_other _ (i_Q o) (i_Q o')) by exact H1.
  rewrite (upd_other _ (i_N o) (i_N o')) by exact H4.
  rewrite (upd_other _ (i_Q o) (i_N o')) by exact H3.
  rewrite (upd_other _ (i_children o) (i_children o')) by exact H5.
  reflexivity.
Qed.

Lemma view_run_call_self (h : Heap) (i : nat) (c : call) :
  heap_wf h ->
  view (run_call h i c) i = option_map (call_state c) (view h i).
Proof.
  intros Hw; unfold view, run_call.
  destruct (nth_error (instances h) i) as [o|] eqn:Ho; simpl; [|rewrite Ho; reflexivity].
  rewrite Ho; simpl; f_equal.
  destruct (call_state_attrs c (load h o)) as [HA HE].
  exact (load_store_self h i o _ Hw Ho HA HE).
Qed.

Lemma view_run_call_other (h : Heap) (i j : nat) (c : call) :
  heap_wf h -> i <> j -> view (run_call h i c) j = view h j.
Proof.
  intros Hw Hij; unfold view, run_call.
  destruct (nth_error (instances h) i) as [o|] eqn:Ho; simpl; [|reflexivity].
  destruct (nth_error (instances h) j) as [o'|] eqn:Ho'; simpl; [|reflexivity].
  f_equal; apply load_store_other.
  exact (proj2 Hw j i o' o (not_eq_sym Hij) Ho' Ho).
Qed.

Lemma view_new_instance_old (h : Heap) ags c (j : nat) :
  heap_wf h -> j <> length (instances h) ->
  view (new_instance h ags c) j = view h j.
Proof.
  intros Hw Hj; unfold view; simpl.
  destruct (Nat.lt_ge_cases j (length (instances h))) as [Hlt|Hge].
  - rewrite nth_error_app1 by exact Hlt.
    destruct (nth_error (instances h) j) as [o|] eqn:Ho; simpl; [|reflexivity].
    destruct (heap_wf_refs h j o Hw Ho) as (H1 & H2 & H3).
    unfold load; simpl.
    rewrite !(upd_other _ _ (i_Q o)), !(upd_other _ _ (i_N o)),
      (upd_other _ _ (i_children o)) by lia.
    reflexivity.
  - rewrite nth_error_app2 by exact Hge.
    rewrite (proj2 (nth_error_None (instances h) j)) by exact Hge.
    destruct (j - length (instances h))%nat as [|[|k]] eqn:Ek; [lia|reflexivity..].
Qed.

Lemma view_new_instance_self (h : Heap) ags c :
  view (new_instance h ags c) (length (instances h)) = Some (new_MCTS ags c).
Proof.
  unfold view; simpl.
  rewrite nth_error_app2, Nat.sub_diag by lia; simpl.
  unfold load, new_MCTS; simpl; unfold upd.
  rewrite !Nat.eqb_refl.
  destruct (Nat.eqb (next_ref h) (S (next_ref h))); reflexivity.
Qed.

End HeapFacts.

Section Claims.
Context {game action : Type} `{Game game action}.
Context {node : Type} `{SearchNode node game}.

Local Abbreviation State := (@MCTS game action node).

(** C1 (as amended). After [k] rollouts that return normally on a fresh
    searcher, [N[root] = k] and no node has more visits than the root: a
    path of [_select] never repeats a node. The sum over [children[root]]
    is not bounded by [N[root]]: see [rollouts_children_sum_exceeds_root]. *)
Theorem rollouts_root_visits (k fuel : nat) (root : node) ags c (s' : State) :
  rollouts k fuel root (new_MCTS ags c) = (Ok tt, s') ->
  Nt s' root = Z.of_nat k /\ forall x, (Nt s' x <= Nt s' root)%Z.
Proof.
  intros Hr; destruct (rollouts_visits k fuel root ags c s' Hr) as (Hroot & Hall).
  split; [exact Hroot|]; intros x; rewrite Hroot; apply Hall.
Qed.

(** C2. [_backpropagate(path, reward)] adds to [N[x]] one for each
    occurrence of [x] on the path, and to [Q[x]] the reward, negated when
    the player to move at [x] is not FIRST, once per occurrence; nodes off
    the path and the children table are unchanged. *)
Theorem backpropagate_path_stats (path : list node) (reward : Z) (s : State) :
  let s' := snd (backpropagate path reward s) in
  fst (backpropagate path reward s) = Ok tt /\
  (forall x,
     (Nt s' x = Nt s x + Z.of_nat (count_occ node_eq_dec path x))%Z /\
     (Qt s' x = Qt s x + Z.of_nat (count_occ node_eq_dec path x)
                         * signed_reward reward x)%Z) /\
  children s' = children s.
Proof.
  cbv zeta; unfold backpropagate; simpl.
  split; [reflexivity|split].
  - intros x; destruct (backprop_fold reward (rev path) s x) as (HN & HQ & _).
    rewrite HN, HQ, count_occ_rev; split; reflexivity.
  - generalize s; induction (rev path) as [|a l IH]; intros s0; simpl;
      [reflexivity|].
    rewrite IH; reflexivity.
Qed.


(** C3 (as amended). [choose(node)] raises [RuntimeError] on a terminal
    node; on a non-terminal node that is not a key of [children] it returns
    [find_random_child()]; on a key with an empty children list it raises
    [ValueError] (from [max]); otherwise it returns the first child with the
    greatest score ([Q/N], or minus infinity for an unvisited child): every
    child listed before it scores strictly less and none scores more. It
    returns an unvisited child only when no child has been visited. *)
Theorem choose_spec (n : node) (s : State) :
  (is_terminal n = true -> choose n s = (Raise RuntimeError, s)) /\
  (is_terminal n = false -> is_key s n = false ->
     choose n s = (Ok (find_random_child n), s)) /\
  (is_terminal n = false -> is_key s n = true -> children_of s n = [] ->
     choose n s = (Raise ValueError, s)) /\
  (is_terminal n = false -> is_key s n = true -> children_of s n <> [] ->
     exists c, choose n s = (Ok c, s) /\ In c (children_of s n) /\
       (forall c', In c' (children_of s n) ->
          escore_le (choose_score s c') (choose_score s c)) /\
       (exists l1 l2, children_of s n = l1 ++ c :: l2 /\
          forall c', In c' l1 ->
            escore_gtb (choose_score s c) (choose_score s c') = true) /\
       (Nt s c = 0%Z -> forall c', In c' (children_of s n) -> Nt s c' = 0%Z)).
Proof.
  unfold choose.
  split; [intros ->; reflexivity|].
  split; [intros -> ->; reflexivity|].
  split; [intros -> -> ->; reflexivity|].
  intros -> -> Hne; simpl.
  destruct (max_by escore_gtb (choose_score s) (children_of s n)) as [c|] eqn:Em.
  2:{ destruct (children_of s n); [congruence|discriminate]. }
  pose proof (max_by_max escore_gtb _ escore_gtb_asym escore_gtb_le_trans _ _ Em)
    as Hmax.
  exists c; split; [reflexivity|split; [eapply max_by_in; exact Em|split]].
  - exact Hmax.
  - split; [exact (max_by_first escore_gtb _ escore_gtb_asym escore_gtb_gt_ge _ _ Em)|].
    intros Hc c' Hin; specialize (Hmax c' Hin).
    unfold choose_score in Hmax; rewrite Hc in Hmax; simpl in Hmax.
    destruct (Z.eqb_spec (Nt s c') 0) as [E|_]; [exact E|discriminate].
Qed.

(** C4. One step of the descent of [_select]: it stops at a terminal or
    unexpanded node (and at an expanded node with no children); at a node
    with a child that is not a key of [children] it ends the path with such
    a child; at a fully expanded node whose statistics define the UCT score
    it continues from a child maximizing [Q[n]/N[n] + c * sqrt(ln(N[p]) /
    N[n])]. *)
Theorem select_step (fuel : nat) (n : node) (s : State) :
  (is_terminal n = true \/ is_key s n = false \/ children_of s n = [] ->
     select (S fuel) n s = (Ok [n], s)) /\
  (is_terminal n = false -> is_key s n = true -> children_of s n <> [] ->
   unexplored_of s n <> [] ->
     exists u, select (S fuel) n s = (Ok [n; u], s) /\
       In u (children_of s n) /\ is_key s u = false) /\
  (is_terminal n = false -> is_key s n = true -> children_of s n <> [] ->
   (forall c, In c (children_of s n) -> is_key s c = true) ->
   (0 < Nt s n)%Z -> (forall c, In c (children_of s n) -> Nt s c <> 0%Z) ->
     exists m, In m (children_of s n) /\
       (forall c, In c (children_of s n) ->
          (uct_score s n c <= uct_score s n m)%R) /\
       uct_score s n m =
         (IZR (Qt s m) / IZR (Nt s m) + exploration_weight s
            * sqrt (ln (IZR (Nt s n)) / IZR (Nt s m)))%R /\
       select (S fuel) n s = select_loop fuel [n] m s).
Proof.
  unfold select; split; [|split].
  - intros Hst; simpl.
    assert (E : stops_at s n = true).
    { unfold stops_at; destruct Hst as [ -> | [ -> | -> ] ];
        rewrite ?orb_true_r; reflexivity. }
    rewrite E; reflexivity.
  - intros Ht Hk Hne Hun; simpl.
    assert (E : stops_at s n = false).
    { unfold stops_at; rewrite Ht, Hk; simpl.
      destruct (children_of s n); [congruence|reflexivity]. }
    rewrite E.
    destruct (unexplored_of s n) as [|u us] eqn:Eun; [congruence|].
    exists (last (u :: us) u); split; [reflexivity|].
    apply unexplored_in; rewrite Eun; apply last_In.
  - intros Ht Hk Hne Hall Hn Hc.
    assert (Hfa : forallb (is_key s) (children_of s n) = true)
      by (apply forallb_forall; exact Hall).
    destruct (uct_select_max n s Hfa Hn Hc Hne) as (m & Eu & Hin & Hmax).
    exists m; split; [exact Hin|split; [exact Hmax|split; [reflexivity|]]].
    apply (select_loop_descend fuel [] n m s); [|apply forallb_filter_negb_nil; exact Hfa|exact Eu].
    unfold stops_at; rewrite Ht, Hk; simpl.
    destruct (children_of s n); [congruence|reflexivity].
Qed.

(** C5. [_simulate] plays the clone of the node's state: while there is no
    winner it asks the agent at index [current_player.id] for an action and
    applies it; it returns 1 when the final winner is FIRST and -1
    otherwise (a SECOND win included), and leaves the searcher unchanged. *)
Theorem simulate_spec (fuel : nat) (n : node) (s : State) :
  (forall ags f g, winner g = None ->
     play ags (S f) g =
       match nth_error ags (Z.to_nat (player_id (current_player g))) with
       | None => Raise IndexError
       | Some agent =>
           match act g (agent g) with
           | inl e => Raise (EngineError e)
           | inr g' => play ags f g'
           end
       end) /\
  (forall ags f g, winner g <> None -> play ags (S f) g = Ok g) /\
  snd (simulate fuel n s) = s /\
  (forall r, fst (simulate fuel n s) = Ok r <->
     exists g, play (agents s) fuel (state n) = Ok g /\ winner g <> None /\
       r = (if winner_eqb (winner g) FIRST then 1 else -1)%Z) /\
  mcts_reward (Some FIRST) = 1%Z /\ mcts_reward (Some SECOND) = (-1)%Z.
Proof.
  split; [intros ags f g Hw; simpl; rewrite Hw; reflexivity|].
  split; [intros ags f g Hw; simpl; destruct (winner g); [reflexivity|congruence]|].
  split; [reflexivity|].
  split; [|split; reflexivity].
  intros r; unfold simulate; simpl; split.
  - destruct (play (agents s) fuel (state n)) as [g| |] eqn:Ep;
      [|discriminate..].
    injection 1 as <-; exists g; repeat split; [exact (play_ok_winner _ _ _ _ Ep)].
  - intros (g & -> & _ & ->); reflexivity.
Qed.

(** C6. When [_select] reaches [_uct_select] (the node stops nothing and has
    no unexplored child), every child listed for the node is a key of
    [children]; hence no [do_rollout] call, from any searcher state, raises
    the [AssertionError] of [_uct_select]. *)
Theorem do_rollout_no_assertion (fuel : nat) (root : node) (s : State) :
  (forall s' n, stops_at s' n = false -> unexplored_of s' n = [] ->
     forallb (is_key s') (@children_of game action node s' n) = true) /\
  raised_assertion (fst (do_rollout fuel root s)) = false.
Proof.
  split.
  { intros s' n _ Hun; apply filter_negb_nil_forallb; exact Hun. }
  unfold do_rollout, bind.
  pose proof (select_loop_no_assertion fuel [] root s) as Hs.
  destruct (select fuel root s) as [o1 s1] eqn:Es.
  unfold select in Es; rewrite Es in Hs; simpl in Hs.
  destruct o1 as [p| |]; [|exact Hs|reflexivity].
  destruct (expand (last p root) s1) as [o2 s2] eqn:Ee.
  pose proof (proj1 (expand_spec (last p root) s1)) as Hok.
  rewrite Ee in Hok; simpl in Hok; subst o2.
  unfold simulate; pose proof (play_no_assertion (agents s2) fuel
    (state (last p root))) as Hp.
  destruct (play (agents s2) fuel (state (last p root))); simpl in Hp |- *;
    [reflexivity|exact Hp|reflexivity].
Qed.

(** C7. [_expand(node)] changes nothing when [node] is already a key of
    [children], and otherwise sets [children[node]] to [find_children()];
    two calls in a row act as one. *)
Theorem expand_idempotent (n : node) (s : State) :
  (is_key s n = true -> expand n s = (Ok tt, s)) /\
  (is_key s n = false -> expand n s = (Ok tt, set_children s n (find_children n))) /\
  (expand n ;; expand n) s = expand n s.
Proof.
  unfold expand; split; [intros ->; reflexivity|split; [intros ->; reflexivity|]].
  unfold bind; destruct (is_key s n) eqn:Ek; [rewrite Ek; reflexivity|].
  unfold is_key at 1, set_children; simpl.
  destruct (node_eq_dec n n) as [_|]; [reflexivity|congruence].
Qed.

(** C8. Each [MCTS(...)] allocates three new dictionaries for [Q], [N]
    and [children], empty, and shared with no other instance. So, in any
    program of constructions and calls: a new instance starts from empty
    tables and leaves the other instances as they were; a sequence of
    [do_rollout] and [choose] calls on the instance [i] changes [i] as the
    method bodies change its tables, and leaves every other instance [j]
    as it was. *)
Theorem instances_independent (ops : list op) :
  let h := run_ops (empty_heap : @heap game action node) ops in
  (forall ags c,
     view (new_instance h ags c) (length (instances h)) = Some (new_MCTS ags c) /\
     forall j, j <> length (instances h) -> view (new_instance h ags c) j = view h j) /\
  (forall i cs,
     view (run_calls h i cs) i
     = option_map (fun s => fold_left (fun s c => call_state c s) cs s) (view h i)) /\
  (forall i j cs, i <> j -> view (run_calls h i cs) j = view h j).
Proof.
  intros h.
  assert (Hw : heap_wf h) by exact (run_ops_wf _ ops heap_wf_empty).
  split; [|split].
  - intros ags c; split; [apply view_new_instance_self|].
    intros j Hj; exact (view_new_instance_old h ags c j Hw Hj).
  - intros i cs; clearbody h; unfold run_calls; revert h Hw.
    induction cs as [|c cs IH]; intros h Hw; simpl.
    + destruct (view h i); reflexivity.
    + rewrite (IH _ (run_call_wf h i c Hw)), (view_run_call_self h i c Hw).
      destruct (view h i); reflexivity.
  - intros i j cs Hij; clearbody h; unfold run_calls; revert h Hw.
    induction cs as [|c cs IH]; intros h Hw; simpl; [reflexivity|].
    rewrite (IH _ (run_call_wf h i c Hw)).
    exact (view_run_call_other h i j c Hw Hij).
Qed.

End Claims.

(** C9. The three invariant-violation kinds are subclasses of [GameError],
    the three illegal-action kinds are subclasses of [ActionError], and no
    kind is a subclass of both; [GameError] and [ActionError] are distinct
    subclasses of [Exception], neither a subclass of the other. *)
Theorem error_families (e : error_kind) :
  (issubclass (class_of e) GameError = true <->
     In e [EFullHand; EEmptyDeck; EWardShield]) /\
  (issubclass (class_of e) ActionError = true <->
     In e [ENotEnoughMana; EFullLane; EMalformedAction]) /\
  issubclass (class_of e) GameError && issubclass (class_of e) ActionError
    = false /\
  issubclass GameError Exception = true /\
  issubclass ActionError Exception = true /\
  issubclass GameError ActionError = false /\
  issubclass ActionError GameError = false.
Proof.
  destruct e; vm_compute; intuition (try discriminate; try congruence).
Qed.

(** C10. [WinLossRewardFunction.calculate(state, p)] is 1 when the winner is
    [p], -1 when it is [p.opposing()], and 0 otherwise, in particular with
    no winner; the reward of [_simulate] is never 0. *)
Theorem win_loss_reward (w : option PlayerOrder) (p : PlayerOrder) :
  (w = Some p -> win_loss_calculate w p = 1%Z) /\
  (w = Some (opposing p) -> win_loss_calculate w p = (-1)%Z) /\
  (w <> Some p -> w <> Some (opposing p) -> win_loss_calculate w p = 0%Z) /\
  win_loss_calculate None p = 0%Z /\
  mcts_reward w <> 0%Z.
Proof.
  destruct w as [q|], p; try destruct q; vm_compute;
    intuition (try discriminate; try congruence).
Qed.

(** ** Runs on the small game *)

Lemma toy_s2_rollouts : rollouts 2 10 0%nat Toy.fresh = (Ok tt, Toy.toy_s2).
Proof. vm_compute; reflexivity. Qed.

Lemma toy_s2_uct : uct_select 0%nat Toy.toy_s2 = (Ok 1%nat, Toy.toy_s2).
Proof.
  destruct (uct_select_max 0%nat Toy.toy_s2) as (m & Eu & Hin & _).
  - vm_compute; reflexivity.
  - vm_compute; reflexivity.
  - intros c Hc; vm_compute in Hc; destruct Hc as [<-|[<-|[]]]; vm_compute;
      discriminate.
  - vm_compute; discriminate.
  - vm_compute in Hin; destruct Hin as [<-|[<-|[]]]; exact Eu.
Qed.

Lemma toy_s2_select : select 10 0%nat Toy.toy_s2 = (Ok [0; 1]%nat, Toy.toy_s2).
Proof.
  unfold select; rewrite (select_loop_descend 9 [] 0%nat 1%nat Toy.toy_s2).
  - vm_compute; reflexivity.
  - vm_compute; reflexivity.
  - vm_compute; reflexivity.
  - exact toy_s2_uct.
Qed.

(** C1, counterexample. From node [0], whose two moves reach the same node
    [1], three rollouts give [N[0] = 3] while [children[0] = [1, 1]] and
    [N[1] = 2], so the sum over [children[0]] is 4. *)
Lemma rollouts_children_sum_exceeds_root :
  let s := snd (rollouts 3 10 0%nat Toy.fresh) in
  fst (rollouts 3 10 0%nat Toy.fresh) = Ok tt /\
  Nt s 0%nat = 3%Z /\ sum_children_visits s 0%nat = 4%Z.
Proof.
  assert (E3 : rollouts 3 10 0%nat Toy.fresh = do_rollout 10 0%nat Toy.toy_s2).
  { change (rollouts 3 10 0%nat Toy.fresh)
      with (bind (rollouts 2 10 0%nat) (fun _ => do_rollout 10 0%nat) Toy.fresh).
    unfold bind at 1; rewrite toy_s2_rollouts; reflexivity. }
  cbv zeta; rewrite E3; unfold do_rollout, bind; cbv beta.
  rewrite toy_s2_select; vm_compute; repeat split.
Qed.

(** C1, witness: three rollouts from node [2] visit it three times. *)
Lemma rollouts_root_visits_witness :
  Nt Toy.toy_t3 2%nat = 3%Z /\
  (forall x, (Nt Toy.toy_t3 x <= Nt Toy.toy_t3 2%nat)%Z).
Proof.
  apply (rollouts_root_visits 3 10 2%nat
           [Toy.agent; Toy.agent] default_exploration_weight Toy.toy_t3).
  vm_compute; reflexivity.
Defined.

(** C3, counterexample. After one rollout from node [0], [choose(0)]
    returns the child [1], which has never been visited. *)
Lemma choose_returns_unvisited_child :
  let s := snd (rollouts 1 10 0%nat Toy.fresh) in
  fst (choose 0%nat s) = Ok 1%nat /\ Nt s 1%nat = 0%Z /\ is_key s 0%nat = true.
Proof. vm_compute; repeat split. Qed.

(** C3, witness: on that state the amended description applies. *)
Lemma choose_spec_witness :
  exists c, choose 0%nat (snd (rollouts 1 10 0%nat Toy.fresh))
              = (Ok c, snd (rollouts 1 10 0%nat Toy.fresh)) /\
            In c [1; 1]%nat.
Proof.
  destruct (proj2 (proj2 (proj2 (choose_spec 0%nat (snd (rollouts 1 10 0%nat Toy.fresh))))))
    as (c & E & Hin & _ & _ & _).
  - vm_compute; reflexivity.
  - vm_compute; reflexivity.
  - vm_compute; discriminate.
  - exists c; split; [exact E|vm_compute in Hin; exact Hin].
Defined.

(** C4, witness: after three rollouts from node [2], both of its children
    are keys with visits, so the descent continues by UCT. *)
Lemma select_step_witness :
  exists m, In m [3; 4]%nat /\
    select 11 2%nat Toy.toy_t3 = select_loop 10 [2%nat] m Toy.toy_t3.
Proof.
  destruct (proj2 (proj2 (select_step 10 2%nat Toy.toy_t3)))
    as (m & Hin & _ & _ & E).
  - vm_compute; reflexivity.
  - vm_compute; reflexivity.
  - vm_compute; discriminate.
  - intros c Hc; vm_compute in Hc; destruct Hc as [<-|[<-|[]]]; vm_compute;
      reflexivity.
  - vm_compute; reflexivity.
  - intros c Hc; vm_compute in Hc; destruct Hc as [<-|[<-|[]]]; vm_compute;
      discriminate.
  - exists m; split; [vm_compute in Hin; exact Hin|exact E].
Defined.

(** C8, witness: two instances, then a rollout and a [choose] on the
    instance [0]: the instance [1] is as it was. *)
Lemma instances_independent_witness :
  let h := run_ops empty_heap
             [OpNew [Toy.agent; Toy.agent] default_exploration_weight;
              OpNew [Toy.agent; Toy.agent] default_exploration_weight] in
  view (run_calls h 0%nat [CallDoRollout 10 0%nat; CallChoose 0%nat]) 1%nat = view h 1%nat.
Proof.
  exact (proj2 (proj2 (instances_independent
    [OpNew [Toy.agent; Toy.agent] default_exploration_weight;
     OpNew [Toy.agent; Toy.agent] default_exploration_weight]))
    0%nat 1%nat [CallDoRollout 10 0%nat; CallChoose 0%nat] ltac:(discriminate)).
Defined.

(** ** More of the searcher *)
Section SearcherExtras.
Context {game action : Type} `{Game game action}.
Context {node : Type} `{SearchNode node game}.

Local Abbreviation State := (@MCTS game action node).

Lemma expand_tables (n : node) (s : State) :
  let s' := snd (expand n s) in
  Qt s' = Qt s /\ Nt s' = Nt s /\ agents s' = agents s /\
  is_key s' n = true /\
  (forall x l, children s x = Some l -> children s' x = Some l) /\
  (forall x, is_key s' x = true -> is_key s x = true \/ x = n).
Proof.
  cbv zeta; unfold expand; destruct (is_key s n) eqn:Ek; simpl.
  - repeat split; auto.
  - unfold set_children, is_key; simpl.
    destruct (node_eq_dec n n) as [_|]; [|congruence].
    repeat split; [intros x l Hx|intros x Hx].
    + destruct (node_eq_dec x n) as [->|_]; [|exact Hx].
      unfold is_key in Ek; rewrite Hx in Ek; discriminate.
    + destruct (node_eq_dec x n) as [->|_]; [now right|now left].
Qed.

Lemma do_rollout_unfold (fuel : nat) (root : node) (s : State) :
  do_rollout fuel root s =
  match select fuel root s with
  | (Ok p, _) =>
      let s1 := snd (expand (last p root) s) in
      match play (agents s1) fuel (state (last p root)) with
      | Ok g => (Ok tt, fold_left (backprop_node (mcts_reward (winner g))) (rev p) s1)
      | Raise e => (Raise e, s1)
      | Diverge => (Diverge, s1)
      end
  | (Raise e, _) => (Raise e, s)
  | (Diverge, _) => (Diverge, s)
  end.
Proof.
  unfold do_rollout, bind.
  destruct (select fuel root s) as [o1 s1] eqn:Es.
  pose proof (select_loop_state _ _ _ _ _ _ Es) as ->.
  destruct o1 as [p| |]; [|reflexivity..].
  pose proof (proj1 (expand_spec (last p root) s)) as Hok.
  destruct (expand (last p root) s) as [o2 s2]; simpl in Hok |- *; subst o2.
  unfold simulate; destruct (play (agents s2) fuel (state (last p root)));
    reflexivity.
Qed.

Lemma select_loop_descent (f : nat) (pre : list node) (n : node) (s : State) p s' :
  select_loop f pre n s = (Ok p, s') ->
  exists q, p = pre ++ q /\ hd_error q = Some n /\ descent s q.
Proof.
  revert pre n s'; induction f as [|f IH]; intros pre n s' Hs; simpl in Hs;
    [discriminate|].
  destruct (stops_at s n) eqn:Est.
  { injection Hs as <- _; exists [n]; simpl; auto. }
  destruct (unexplored_of s n) as [|u us] eqn:Eun.
  - unfold bind in Hs.
    destruct (uct_select n s) as [o1 s1] eqn:Eu.
    apply uct_select_spec in Eu as [-> Hin].
    destruct o1 as [m| |]; [|discriminate..].
    destruct (IH _ _ _ Hs) as (q & -> & Hq & Hd).
    exists (n :: q); split; [now rewrite <- app_assoc|split; [reflexivity|]].
    destruct q as [|m' q]; [discriminate|]; simpl in Hq; injection Hq as ->.
    exact (conj Est (conj (Hin m eq_refl) Hd)).
  - injection Hs as <- _.
    assert (Hl : In (last (u :: us) u) (unexplored_of s n))
      by (rewrite Eun; apply last_In).
    apply unexplored_in in Hl as [Hl Hk].
    exists [n; last (u :: us) u]; split; [now rewrite <- app_assoc|].
    split; [reflexivity|]; cbn [descent].
    split; [exact Est|split; [exact Hl|]].
    unfold stops_at; rewrite Hk; reflexivity.
Qed.

Lemma descent_head_key (s : State) (root : node) (p : list node) :
  hd_error p = Some root -> descent s p ->
  is_key s root = false -> last p root = root.
Proof.
  destruct p as [|x [|y p]]; simpl; intros Hh Hd Hk; [discriminate| |].
  - now injection Hh as ->.
  - injection Hh as ->; destruct Hd as [Hs _].
    apply stops_at_false in Hs as [Hk' _]; congruence.
Qed.

Lemma play_raise ags fuel g e :
  play ags fuel g = Raise e -> e = IndexError \/ exists k, e = EngineError k.
Proof.
  revert g; induction fuel as [|f IH]; intros g Hp; simpl in Hp; [discriminate|].
  destruct (winner g); [discriminate|].
  destruct (nth_error ags _) as [agent|]; [|injection Hp as <-; now left].
  destruct (act g (agent g)) as [k|g1]; [injection Hp as <-; right; now exists k|].
  exact (IH _ Hp).
Qed.

Lemma select_loop_no_raise (f : nat) (pre : list node) (n : node) (s : State) e :
  (forall x, is_key s x = true -> (1 <= Nt s x)%Z) ->
  fst (select_loop f pre n s) <> Raise e.
Proof.
  intros Hkey; revert pre n; induction f as [|f IH]; intros pre n; simpl;
    [discriminate|].
  destruct (stops_at s n) eqn:Est; [discriminate|].
  destruct (unexplored_of s n) as [|u us] eqn:Eun; [|discriminate].
  unfold unexplored_of in Eun.
  pose proof (filter_negb_nil_forallb _ _ Eun) as Hfa.
  pose proof (forallb_forall (is_key s) (children_of s n)) as [Hall _].
  specialize (Hall Hfa).
  apply stops_at_false in Est as Hk; destruct Hk as [Hk _].
  destruct (uct_select_max n s Hfa) as (m & Eu & _ & _).
  - specialize (Hkey n Hk); lia.
  - intros c Hc; specialize (Hkey c (Hall c Hc)); lia.
  - intros E; unfold stops_at in Est; rewrite E in Est;
      rewrite orb_true_r in Est; discriminate.
  - unfold bind; rewrite Eu; apply IH.
Qed.

End SearcherExtras.

Section SearcherProperties.
Context {game action : Type} `{Game game action}.
Context {node : Type} `{SearchNode node game}.

Local Abbreviation State := (@MCTS game action node).

(** [_select(node)] leaves the tables unchanged and returns a descent from
    [node]: each node of the path but the last is a key of [children] where
    the loop goes on, the next node is one of its listed children, and the
    last node is one where the loop stops (terminal, not a key, or with no
    children). *)
Theorem select_descent (fuel : nat) (n : node) (s : State) p s' :
  select fuel n s = (Ok p, s') ->
  s' = s /\ hd_error p = Some n /\ descent s p.
Proof.
  intros Hs; split; [exact (select_loop_state _ _ _ _ _ _ Hs)|].
  destruct (select_loop_descent _ _ _ _ _ _ Hs) as (q & -> & Hq & Hd).
  split; [exact Hq|exact Hd].
Qed.

Lemma rollout_ok_parts (fuel : nat) (root : node) (s s' : State) :
  do_rollout fuel root s = (Ok tt, s') ->
  exists p r, select fuel root s = (Ok p, s) /\ hd_error p = Some root /\
    descent s p /\ (r = 1 \/ r = -1)%Z /\
    s' = fold_left (backprop_node r) (rev p) (snd (expand (last p root) s)).
Proof.
  rewrite do_rollout_unfold; intros Hr.
  destruct (select fuel root s) as [o1 s1] eqn:Es.
  pose proof (select_loop_state _ _ _ _ _ _ Es) as ->.
  destruct o1 as [p| |]; [|discriminate..].
  destruct (select_loop_descent _ _ _ _ _ _ Es) as (q & Hpq & Hq & Hd);
    simpl in Hpq; subst q.
  cbv zeta in Hr.
  destruct (play _ fuel (state (last p root))) as [g| |]; [|discriminate..].
  injection Hr as <-.
  exists p, (mcts_reward (winner g)); repeat split; auto.
  unfold mcts_reward; destruct (winner_eqb (winner g) FIRST); auto.
Qed.

(** A [do_rollout(root)] that returns normally leaves [root] a key of
    [children], keeps every list already stored, and adds at most one new
    key. *)
Theorem do_rollout_grows_children (fuel : nat) (root : node) (s s' : State) :
  do_rollout fuel root s = (Ok tt, s') ->
  is_key s' root = true /\
  (forall x l, children s x = Some l -> children s' x = Some l) /\
  exists y, forall x, is_key s' x = true -> is_key s x = true \/ x = y.
Proof.
  intros Hr; destruct (rollout_ok_parts _ _ _ _ Hr)
    as (p & r & _ & Hh & Hd & _ & ->).
  pose proof (expand_tables (last p root) s) as (_ & _ & _ & Hleaf & Hmono & Hnew).
  assert (Hc : forall t : State,
            children (fold_left (backprop_node r) (rev p) t) = children t)
    by (intros t; exact (proj1 (proj2 (proj2 (backprop_fold r (rev p) t root))))).
  assert (Hk : forall t x, is_key (fold_left (backprop_node r) (rev p) t) x = is_key t x)
    by (intros t x; unfold is_key; rewrite Hc; reflexivity).
  split; [|split].
  - rewrite Hk; destruct (is_key s root) eqn:Ek.
    + unfold is_key in Ek |- *.
      destruct (children s root) as [l|] eqn:E; [|discriminate].
      now rewrite (Hmono _ _ E).
    + now rewrite <- (descent_head_key s root p Hh Hd Ek) at 2.
  - intros x l Hx; rewrite Hc; exact (Hmono _ _ Hx).
  - exists (last p root); intros x; rewrite Hk; exact (Hnew x).
Qed.

(** A [do_rollout] that raises leaves [Q] and [N] as they were (the
    simulation's exception comes after [_expand], so [children] may have
    gained the leaf, and nothing else). *)
Theorem do_rollout_raise_stats (fuel : nat) (root : node) (s s' : State) e :
  do_rollout fuel root s = (Raise e, s') ->
  Nt s' = Nt s /\ Qt s' = Qt s /\
  (forall x l, children s x = Some l -> children s' x = Some l) /\
  exists y, forall x, is_key s' x = true -> is_key s x = true \/ x = y.
Proof.
  rewrite do_rollout_unfold; intros Hr.
  destruct (select fuel root s) as [[p| |] s1]; cbv zeta in Hr.
  - pose proof (expand_tables (last p root) s) as (HQ & HN & _ & _ & Hmono & Hnew).
    destruct (play _ fuel (state (last p root))); [discriminate| |discriminate].
    injection Hr as _ <-.
    repeat split; auto; exists (last p root); exact Hnew.
  - injection Hr as _ <-; repeat split; auto; exists root; auto.
  - discriminate.
Qed.

Lemma reachable_stats (s : State) :
  reachable s ->
  children_consistent s /\ (forall x, is_key s x = true -> (1 <= Nt s x)%Z) /\
  forall x, (Z.abs (Qt s x) <= Nt s x)%Z.
Proof.
  induction 1 as [ags c|s fuel root s' _ (Hinv & Hkey & HQ) Hr].
  - split; [intros ? ? ?; discriminate|split; [discriminate|]].
    intros x; reflexivity.
  - destruct (rollout_ok_parts _ _ _ _ Hr)
      as (p & r & _ & Hh & Hd & Hr1 & Es').
    pose proof (expand_tables (last p root) s)
      as (HQ1 & HN1 & _ & Hleaf & _ & Hnew).
    pose proof (expand_consistent (last p root) s Hinv) as Hinv1.
    set (s1 := snd (expand (last p root) s)) in *.
    assert (Hfold := fun x => backprop_fold r (rev p) s1 x).
    assert (HN0 : forall x, (0 <= Nt s x)%Z)
      by (intros x; specialize (HQ x); lia).
    subst s'; split; [|split].
    + intros k l; rewrite (proj1 (proj2 (proj2 (Hfold k)))); apply Hinv1.
    + intros x Hx; unfold is_key in Hx;
        rewrite (proj1 (proj2 (proj2 (Hfold x)))) in Hx;
        fold (is_key s1 x) in Hx.
      rewrite (proj1 (Hfold x)), HN1, count_occ_rev.
      destruct (Hnew x Hx) as [Hk| -> ].
      * specialize (Hkey x Hk); lia.
      * assert (Hin : In (last p root) p)
          by (apply last_In_nonempty; destruct p; discriminate).
        apply (count_occ_In node_eq_dec) in Hin; specialize (HN0 (last p root)); lia.
    + intros x; rewrite (proj1 (proj2 (Hfold x))), (proj1 (Hfold x)), HQ1, HN1,
        count_occ_rev.
      specialize (HQ x); unfold signed_reward.
      destruct (moves_first x); destruct Hr1 as [ -> | -> ]; lia.
Qed.

(** On every state a fresh searcher reaches through rollouts that return
    normally: each list in [children] is the [find_children()] of its key,
    each key of [children] has [N >= 1] (so [choose] and [_uct_select] see
    visited nodes), and [|Q[x]| <= N[x]] for every node (each average lies
    in [-1, 1]). *)
Theorem reachable_invariants (s : State) :
  reachable s ->
  children_consistent s /\ (forall x, is_key s x = true -> (1 <= Nt s x)%Z) /\
  forall x, (Z.abs (Qt s x) <= Nt s x)%Z.
Proof. exact (reachable_stats s). Qed.

(** On such a state, [_select] never raises (no [AssertionError],
    [ValueError] or [ZeroDivisionError] from [_uct_select]), so an exception
    of [do_rollout] can only come from the simulation: an [IndexError] on
    [self.agents] or an error of the engine. *)
Theorem reachable_rollout_raises (fuel : nat) (root : node) (s : State) :
  reachable s ->
  (forall e, fst (select fuel root s) <> Raise e) /\
  (forall e s', do_rollout fuel root s = (Raise e, s') ->
     e = IndexError \/ exists k, e = EngineError k).
Proof.
  intros Hreach; destruct (reachable_stats s Hreach) as (_ & Hkey & _).
  assert (Hsel : forall e, fst (select fuel root s) <> Raise e)
    by (intros e; apply select_loop_no_raise; exact Hkey).
  split; [exact Hsel|].
  intros e s' Hr; rewrite do_rollout_unfold in Hr.
  specialize (Hsel e).
  destruct (select fuel root s) as [[p| |] s1]; cbv zeta in Hr.
  - destruct (play _ fuel (state (last p root))) eqn:Ep; [discriminate| |discriminate].
    injection Hr as -> _; exact (play_raise _ _ _ _ Ep).
  - injection Hr as -> _; exfalso; exact (Hsel eq_refl).
  - discriminate.
Qed.

End SearcherProperties.

(** ** [PlayerOrder.opposing] and the health rewards *)

(** [opposing()] swaps the two players: it never returns its argument, and
    applying it twice gives the player back. *)
Theorem opposing_involutive (p : PlayerOrder) :
  opposing (opposing p) = p /\ opposing p <> p /\
  player_id (opposing p) = (1 - player_id p)%Z.
Proof. destruct p; vm_compute; repeat split; discriminate. Qed.

(** [OpponentHealthRewardFunction] is never positive; it is 0 exactly when
    the opponent's health is 0 or below, and it is at least -1 exactly when
    the opponent's health is at most 30. *)
Theorem opponent_health_reward_range (health : PlayerOrder -> Z) (p : PlayerOrder) :
  opponent_health_calculate health p <= 0 /\
  (opponent_health_calculate health p == 0 <-> (health (opposing p) <= 0)%Z) /\
  (-1 <= opponent_health_calculate health p <-> (health (opposing p) <= 30)%Z).
Proof.
  unfold opponent_health_calculate.
  generalize (health (opposing p)); intros h.
  unfold Qle, Qeq, Qdiv, Qmult, Qinv, Qopp, inject_Z; simpl.
  repeat split; intros; lia.
Qed.

(** ** [parse_reward] *)
Section ParseReward.
Import String Ascii Rewards.
Local Open Scope string_scope.

Lemma lower_char_upper_char (c : ascii) : lower_char (upper_char c) = lower_char c.
Proof. destruct c as [[] [] [] [] [] [] [] []]; reflexivity. Qed.

Lemma lower_upper (s : string) : lower (upper s) = lower s.
Proof.
  induction s as [|c s IH]; simpl; [reflexivity|].
  now rewrite lower_char_upper_char, IH.
Qed.

Lemma normalize_hyphens_to_spaces (spaces : list bool) (s : string) :
  replace_space (lower (hyphens_to_spaces spaces s)) = replace_space (lower s).
Proof.
  revert spaces; induction s as [|c s IH]; intros spaces; simpl; [reflexivity|].
  destruct (Ascii.eqb_spec c "-"%char) as [->|_].
  - destruct spaces as [|b bs]; [|destruct b]; simpl; now rewrite IH.
  - simpl; now rewrite IH.
Qed.

(** [parse_reward] accepts each key of [available_rewards] and returns its
    class; it ignores the case of ASCII letters, and a space may stand for
    any hyphen of a name: ["Win Loss"], ["WIN-LOSS"] and ["win-loss"] give
    the same result, a [KeyError] ([None]) included. *)
Theorem parse_reward_spelling :
  Forall (fun kv => parse_reward (fst kv) = Some (snd kv)) available_rewards /\
  (forall s, parse_reward (upper s) = parse_reward s) /\
  (forall spaces s, parse_reward (hyphens_to_spaces spaces s) = parse_reward s).
Proof.
  split; [repeat constructor|split].
  - intros s; unfold parse_reward; now rewrite lower_upper.
  - intros spaces s; unfold parse_reward; now rewrite normalize_hyphens_to_spaces.
Qed.

End ParseReward.

(** ** [runner.py] *)

Lemma ratio_bounds (w g : Z) :
  (0 <= w <= g)%Z -> (0 < g)%Z -> 0 <= inject_Z (100 * w) / inject_Z g <= 100.
Proof.
  intros Hw Hg; destruct g as [|g|g]; [lia| |lia].
  unfold Qle, Qdiv, Qmult, Qinv, inject_Z; cbn [Qnum Qden].
  rewrite ?Pos2Z.inj_mul, ?Z.mul_1_r, ?Z.mul_1_l; split; lia.
Qed.

Section RunnerProperties.
Context {game action : Type} `{Game game action} `{HasPhase game}.
Variable new_game : Z -> game.

Lemma run_game_ok (draft_bots battle_bots : bots) fuel g g' :
  run_game draft_bots battle_bots fuel g = Ok g' -> winner g' <> None.
Proof.
  revert g; induction fuel as [|f IH]; intros g Hr; simpl in Hr; [discriminate|].
  destruct (winner g) eqn:Ew; [injection Hr as <-; rewrite Ew; discriminate|].
  destruct (act g _) as [e|g1]; [discriminate|exact (IH _ Hr)].
Qed.

Lemma evaluate_step fuel p (c c' : counters) o :
  evaluate new_game fuel p c = (o, c') ->
  match o with
  | Ok w => w <> None /\
      c' = ((fst c + if winner_eqb w FIRST then 1 else 0)%Z, (snd c + 1)%Z)
  | _ => c' = c
  end.
Proof.
  unfold evaluate; destruct p as [gid p1 p2 seed|gid p1 p2 seed silent];
    [now injection 1 as <- <-|].
  destruct (run_game _ _ fuel _) as [g| |] eqn:Eg; injection 1 as <- <-; auto.
  split; [exact (run_game_ok _ _ _ _ _ Eg)|reflexivity].
Qed.

(** [evaluate(params)] on a five-tuple that returns adds one game to
    [wins_by_p0[1]], adds one to [wins_by_p0[0]] exactly when the returned
    winner is FIRST, and returns a winner (never [None]); one that raises
    leaves the counters as they were. *)
Theorem evaluate_counters fuel p (c c' : counters) o :
  evaluate new_game fuel p c = (o, c') ->
  match o with
  | Ok w => w <> None /\
      c' = ((fst c + if winner_eqb w FIRST then 1 else 0)%Z, (snd c + 1)%Z)
  | _ => c' = c
  end.
Proof. exact (evaluate_step fuel p c c' o). Qed.

Lemma evaluate_all_step fuel ps (c c' : counters) ws :
  evaluate_all new_game fuel ps c = (Ok ws, c') ->
  length ws = length ps /\ ~ In None ws /\
  c' = ((fst c + Z.of_nat (length (filter (fun w => winner_eqb w FIRST) ws)))%Z,
        (snd c + Z.of_nat (length ps))%Z).
Proof.
  revert c ws; induction ps as [|p ps IH]; intros c ws Hr; simpl in Hr.
  - unfold ret in Hr; injection Hr as <- <-; simpl.
    split; [reflexivity|split; [intros []|]].
    destruct c; simpl; f_equal; lia.
  - unfold bind in Hr.
    destruct (evaluate new_game fuel p c) as [o1 c1] eqn:E1.
    apply evaluate_step in E1.
    destruct o1 as [w| |]; [|discriminate..].
    destruct E1 as [Hw ->].
    destruct (evaluate_all new_game fuel ps _) as [o2 c2] eqn:E2.
    destruct o2 as [ws'| |]; [|discriminate..].
    unfold ret in Hr; injection Hr as <- <-.
    destruct (IH _ _ E2) as (Hl & Hn & ->).
    simpl; split; [now rewrite Hl|split].
    + intros [E|E]; [congruence|exact (Hn E)].
    + destruct (winner_eqb w FIRST); simpl; f_equal; lia.
Qed.

(** [pool.map(evaluate, params)] (or the profiling loop) that returns gives
    one winner per tuple, none of them [None], and adds to [wins_by_p0] the
    number of FIRST wins among them and the number of games. *)
Theorem evaluate_all_counters fuel ps (c c' : counters) ws :
  evaluate_all new_game fuel ps c = (Ok ws, c') ->
  length ws = length ps /\ ~ In None ws /\
  c' = ((fst c + Z.of_nat (length (filter (fun w => winner_eqb w FIRST) ws)))%Z,
        (snd c + Z.of_nat (length ps))%Z).
Proof. exact (evaluate_all_step fuel ps c c' ws). Qed.

Lemma range_length (n : Z) : length (range n) = Z.to_nat n.
Proof. unfold range; now rewrite length_map, length_seq. Qed.

(** [run()] always fails with [--profile]: the loop passes a four-tuple to
    [evaluate], whose unpacking into five names raises [ValueError] before
    any game. Without it, [Pool(args.processes)] raises [ValueError] when
    [--processes] is less than 1. With [--games] 0 or less, when neither of
    these fails first, the final [100 * wins / games] raises
    [ZeroDivisionError]. *)
Theorem run_failures fuel seed silent (player_1 player_2 : bots) :
  (forall games processes c, (1 <= games)%Z ->
     run new_game fuel games seed processes silent true player_1 player_2 c
       = (Raise ValueError, c)) /\
  (forall games processes c, (processes < 1)%Z ->
     run new_game fuel games seed processes silent false player_1 player_2 c
       = (Raise ValueError, c)) /\
  (forall games processes profile, (games <= 0)%Z ->
     (profile = true \/ (1 <= processes)%Z) ->
     run new_game fuel games seed processes silent profile player_1 player_2 (0, 0)%Z
       = (Raise ZeroDivisionError, (0, 0)%Z)).
Proof.
  split; [|split].
  - intros games processes c Hg; unfold run, range.
    destruct (Z.to_nat games) as [|k] eqn:Ek; [lia|].
    reflexivity.
  - intros games processes c Hp; unfold run.
    replace (Z.ltb processes 1) with true by (symmetry; apply Z.ltb_lt; exact Hp).
    reflexivity.
  - intros games processes profile Hg Hpp; unfold run, range.
    replace (Z.to_nat games) with 0%nat by lia.
    destruct profile; [reflexivity|].
    destruct Hpp as [|Hp]; [discriminate|].
    replace (Z.ltb processes 1) with false by (symmetry; apply Z.ltb_ge; exact Hp).
    reflexivity.
Qed.

(** A [run()] without profiling that returns has played [--games] games,
    counts at most that many FIRST wins, and its final ratio is
    [100 * wins / games], between 0 and 100. *)
Theorem run_ratio fuel games seed processes silent (player_1 player_2 : bots) r
    (c' : counters) :
  run new_game fuel games seed processes silent false player_1 player_2 (0, 0)%Z
    = (Ok r, c') ->
  snd c' = games /\ (0 <= fst c' <= snd c')%Z /\
  r == inject_Z (100 * fst c') / inject_Z (snd c') /\ 0 <= r <= 100.
Proof.
  unfold run, bind.
  destruct (Z.ltb processes 1); [discriminate|].
  destruct (evaluate_all new_game fuel _ (0, 0)%Z) as [o1 c1] eqn:E1.
  destruct o1 as [ws| |]; [|discriminate..].
  destruct (evaluate_all_step _ _ _ _ _ E1) as (Hl & _ & ->); cbn [fst snd].
  rewrite length_map, range_length.
  destruct (Z.eqb_spec (0 + Z.of_nat (Z.to_nat games)) 0) as [|Hg];
    [discriminate|].
  injection 1 as <- <-; cbn [fst snd].
  rewrite length_map, range_length in Hl.
  pose proof (filter_length_le (fun w => winner_eqb w FIRST) ws) as Hf.
  set (w := length (filter (fun w => winner_eqb w FIRST) ws)) in *.
  assert (Hgpos : (0 < Z.of_nat (Z.to_nat games))%Z) by lia.
  split; [lia|split; [lia|split; [reflexivity|]]].
  apply ratio_bounds; lia.
Qed.

End RunnerProperties.

(** ** [nminibatches] in [train_and_eval] *)

Lemma nminibatches_loop_spec (n_steps top : Z) (fuel : nat) (m : Z) :
  (1 <= m)%Z -> (Z.to_nat m <= fuel)%nat ->
  (forall d', (m < d' <= top)%Z -> Z.modulo n_steps d' <> 0%Z) ->
  exists d, nminibatches_loop fuel n_steps m = Ok d /\ (1 <= d <= m)%Z /\
    Z.modulo n_steps d = 0%Z /\
    forall d', (d < d' <= top)%Z -> Z.modulo n_steps d' <> 0%Z.
Proof.
  revert m; induction fuel as [|f IH]; intros m Hm Hf Hnone; [lia|simpl].
  destruct (Z.eqb_spec m 0) as [|_]; [lia|].
  destruct (Z.eqb_spec (Z.modulo n_steps m) 0) as [E|E]; simpl.
  - exists m; repeat split; auto; lia.
  - assert (Hm1 : m <> 1%Z) by (intros ->; apply E, Z.mod_1_r).
    destruct (IH (m - 1)%Z) as (d & Ed & Hd & Hmod & Hmax); [lia|lia| |].
    + intros d' Hd'; destruct (Z.eq_dec d' m) as [->|Hne]; [exact E|].
      apply Hnone; lia.
    + exists d; repeat split; auto; lia.
Qed.

(** With [n_steps >= 1] and [nminibatches >= 1] (as the search space draws
    them), the adjustment in [train_and_eval] ends with the greatest divisor
    of [n_steps] that is at most [min(nminibatches, n_steps)]; it is at
    least 1, so PPO2 gets a batch size that divides [n_steps]. *)
Theorem fix_nminibatches_divisor (fuel : nat) (n_steps nminibatches : Z) :
  (1 <= n_steps)%Z -> (1 <= nminibatches)%Z ->
  (Z.to_nat (Z.min nminibatches n_steps) <= fuel)%nat ->
  exists d, fix_nminibatches fuel n_steps nminibatches = Ok d /\
    (1 <= d <= Z.min nminibatches n_steps)%Z /\ Z.modulo n_steps d = 0%Z /\
    forall d', (d < d' <= Z.min nminibatches n_steps)%Z ->
      Z.modulo n_steps d' <> 0%Z.
Proof.
  intros Hn Hm Hf; unfold fix_nminibatches.
  apply nminibatches_loop_spec; [lia|exact Hf|intros d' Hd'; lia].
Qed.

(** ** Runs of the extra properties on the small game *)

Lemma rollouts_reachable {game action node : Type} `{Game game action}
    `{SearchNode node game} (k fuel : nat) (root : node) ags c
    (s : @MCTS game action node) :
  rollouts k fuel root (new_MCTS ags c) = (Ok tt, s) -> reachable s.
Proof.
  revert s; induction k as [|k IH]; intros s Hr; simpl in Hr.
  - unfold ret in Hr; injection Hr as <-; apply reachable_new.
  - unfold bind in Hr.
    destruct (rollouts k fuel root (new_MCTS ags c)) as [o1 s1] eqn:E1.
    destruct o1 as [[]| |]; [|discriminate..].
    exact (reachable_rollout s1 fuel root s (IH _ eq_refl) Hr).
Qed.

Lemma select_descent_witness :
  Toy.toy_s2 = Toy.toy_s2 /\ hd_error [0; 1]%nat = Some 0%nat /\
  descent Toy.toy_s2 [0; 1]%nat.
Proof.
  apply (select_descent 10 0%nat Toy.toy_s2 [0; 1]%nat Toy.toy_s2).
  exact toy_s2_select.
Defined.

Lemma do_rollout_grows_children_witness :
  is_key (snd (do_rollout 10 0%nat Toy.fresh)) 0%nat = true /\
  (forall x l, children Toy.fresh x = Some l ->
     children (snd (do_rollout 10 0%nat Toy.fresh)) x = Some l) /\
  exists y, forall x, is_key (snd (do_rollout 10 0%nat Toy.fresh)) x = true ->
    is_key Toy.fresh x = true \/ x = y.
Proof.
  assert (E : fst (do_rollout 10 0%nat Toy.fresh) = Ok tt) by (vm_compute; reflexivity).
  apply (do_rollout_grows_children 10 0%nat Toy.fresh).
  rewrite <- E; apply surjective_pairing.
Defined.

Lemma do_rollout_raise_stats_witness :
  Nt (snd (do_rollout 10 0%nat toy_no_agents)) = Nt toy_no_agents /\
  Qt (snd (do_rollout 10 0%nat toy_no_agents)) = Qt toy_no_agents /\
  (forall x l, children toy_no_agents x = Some l ->
     children (snd (do_rollout 10 0%nat toy_no_agents)) x = Some l) /\
  exists y, forall x, is_key (snd (do_rollout 10 0%nat toy_no_agents)) x = true ->
    is_key toy_no_agents x = true \/ x = y.
Proof.
  assert (E : fst (do_rollout 10 0%nat toy_no_agents) = Raise IndexError)
    by (vm_compute; reflexivity).
  apply (do_rollout_raise_stats 10 0%nat toy_no_agents _ IndexError).
  rewrite <- E; apply surjective_pairing.
Defined.

Lemma reachable_invariants_witness :
  children_consistent Toy.toy_s2 /\
  (forall x, is_key Toy.toy_s2 x = true -> (1 <= Nt Toy.toy_s2 x)%Z) /\
  forall x, (Z.abs (Qt Toy.toy_s2 x) <= Nt Toy.toy_s2 x)%Z.
Proof.
  apply reachable_invariants.
  exact (rollouts_reachable 2 10 0%nat _ _ Toy.toy_s2 toy_s2_rollouts).
Defined.

Lemma reachable_rollout_raises_witness :
  fst (do_rollout 10 0%nat toy_no_agents) = Raise IndexError /\
  (forall e, fst (select 10 0%nat toy_no_agents) <> Raise e) /\
  (forall e s', do_rollout 10 0%nat toy_no_agents = (Raise e, s') ->
     e = IndexError \/ exists k, e = EngineError k).
Proof.
  split; [vm_compute; reflexivity|].
  apply reachable_rollout_raises, reachable_new.
Defined.

Lemma evaluate_counters_witness :
  Some FIRST <> None /\ (1, 1)%Z = ((0 + 1)%Z, (0 + 1)%Z).
Proof.
  apply (evaluate_counters ToyRunner.new_game 10
           (Params5 0 ToyRunner.player ToyRunner.player 0 false) (0, 0)%Z (1, 1)%Z
           (Ok (Some FIRST))).
  vm_compute; reflexivity.
Defined.

Lemma evaluate_all_counters_witness :
  length [Some FIRST; Some FIRST] = 2%nat /\ ~ In None [Some FIRST; Some FIRST] /\
  (2, 2)%Z = ((0 + Z.of_nat (length (filter (fun w => winner_eqb w FIRST)
                                       [Some FIRST; Some FIRST])))%Z,
              (0 + Z.of_nat 2)%Z).
Proof.
  apply (evaluate_all_counters ToyRunner.new_game 10
           [Params5 0 ToyRunner.player ToyRunner.player 0 false;
            Params5 1 ToyRunner.player ToyRunner.player 0 false] (0, 0)%Z (2, 2)%Z).
  vm_compute; reflexivity.
Defined.

Lemma run_ratio_witness :
  snd (2, 2)%Z = 2%Z /\ (0 <= fst (2, 2)%Z <= snd (2, 2)%Z)%Z /\
  inject_Z 200 / inject_Z 2 == inject_Z (100 * fst (2, 2)%Z) / inject_Z (snd (2, 2)%Z) /\
  0 <= inject_Z 200 / inject_Z 2 <= 100.
Proof.
  apply (run_ratio ToyRunner.new_game 10 2 0 1 false ToyRunner.player ToyRunner.player).
  vm_compute; reflexivity.
Defined.

Lemma fix_nminibatches_divisor_witness :
  exists d, fix_nminibatches 4 30 4 = Ok d /\ (1 <= d <= Z.min 4 30)%Z /\
    Z.modulo 30 d = 0%Z /\
    forall d', (d < d' <= Z.min 4 30)%Z -> Z.modulo 30 d' <> 0%Z.
Proof.
  apply fix_nminibatches_divisor; vm_compute; first [reflexivity | discriminate | auto].
Defined.
